(** * zdt_pythoncan_driver: the CAN interface of [lib_interface.py]

    A shallow embedding of class [CANInterface]: the two class-level
    dictionaries shared by every instance (the bus registry [buses] and the
    queue store [message_fifos]), the receiver loop, and the public methods
    [open], [close], [send], [receive_from] and [clear_fifo].

    Conventions of the embedding.
    - A Python dictionary is a [gmap].  The keys of [message_fifos] are
      Python objects: the receiver loop files messages under tuples
      [(interface, channel, can_id)], while [clear_fifo] tests membership of
      a bare [can_id].  An [int] never equals a tuple, so the key type is the
      sum [Z + string * string * Z].
    - A Python number given as [timeout] or [check_frequency] is a
      [number]: a rational (every [int] and every finite [float] is one), an
      infinity or NaN.  Readings of [time.time()] are rationals.  The code
      compares, subtracts and inverts these numbers; what [time.sleep] does
      with a duration (return, or raise on NaN, on a negative and on too
      long a duration) is an input of the embedding.
    - A method that can raise returns an [outcome]; the state reached is
      returned next to it, so what a failing call had already done stays
      visible.
    - Each block guarded by the lock is one atomic step; what other threads
      do between two such steps is an input of the embedding. *)

From Stdlib Require Import QArith Lqa.
From stdpp Require Import gmap strings list fin_maps.

Local Open Scope Z_scope.

(** ** Data model *)

(** The exceptions the module raises or lets through.  All of them are
    subclasses of Python's [Exception], which is what [send] catches. *)
Inductive exn :=
  | KeyError
  | ValueError
  | OverflowError
  | CanOperationError
  | CanTimeoutError.

Inductive outcome (A : Type) :=
  | Return (a : A)
  | Raise (e : exn).
Arguments Return {A} a.
Arguments Raise {A} e.

(** [can.Message], with the fields the driver builds and reads. *)
Record Message := {
  arbitration_id : Z;
  data : list Byte.byte;
  is_extended_id : bool;
  is_fd : bool
}.

(** [can.BusABC]: the handle of an open transport.  [shutdown] marks the
    object; it is the same object that the registry holds. *)
Record Bus := {
  bus_channel : string;
  bus_interface : string;
  bus_bitrate : Z;
  _is_shutdown : bool
}.

Definition shutdown (b : Bus) : Bus :=
  {| bus_channel := bus_channel b; bus_interface := bus_interface b;
     bus_bitrate := bus_bitrate b; _is_shutdown := true |}.

(** Modelled from the spec: module [lib_threading] (class [Threader]) is not
    among the sources.  The spec gives it a cooperative stop flag, checked by
    the receiver loop at each iteration, a guard (the lock), a way to start
    one background task, and [stop], which clears the flag and waits for the
    loop to end. *)
Record Threader := { _running : bool }.

Definition stop (t : Threader) : Threader := {| _running := false |}.

(** What the logger is asked to write. *)
Inductive LogRecord :=
  | debug_created
  | debug_received (msg : Message)
  | debug_sent (msg : Message)
  | info_timeout (timeout : option Q) (msg : Message).

Abbreviation ConnKey := (string * string)%type.
Abbreviation QueueKey := (Z + string * string * Z)%type.
Abbreviation Registry := (gmap (string * string) (option Bus)).
Abbreviation Store := (gmap (Z + string * string * Z) (list Message)).

(** The state shared by all instances: the two class attributes, the
    background tasks started so far (each named by the connection key of the
    instance whose [_loop] it runs) and the log. *)
Record World := {
  buses : Registry;
  message_fifos : Store;
  tasks : list ConnKey;
  log : list LogRecord
}.

Definition empty_world : World :=
  {| buses := ∅; message_fifos := ∅; tasks := []; log := [] |}.

Definition set_buses (r : Registry) (w : World) : World :=
  {| buses := r; message_fifos := message_fifos w; tasks := tasks w; log := log w |}.

Definition set_fifos (s : Store) (w : World) : World :=
  {| buses := buses w; message_fifos := s; tasks := tasks w; log := log w |}.

Definition add_task (k : ConnKey) (w : World) : World :=
  {| buses := buses w; message_fifos := message_fifos w;
     tasks := tasks w ++ [k]; log := log w |}.

Record CANInterface := {
  interface : string;
  channel : string;
  bitrate : Z;
  max_queue_size : Z;
  logger : bool;
  _threader : Threader
}.

Definition set_threader (t : Threader) (self : CANInterface) : CANInterface :=
  {| interface := interface self; channel := channel self;
     bitrate := bitrate self; max_queue_size := max_queue_size self;
     logger := logger self; _threader := t |}.

(** [if self.logger: with lock: self.logger.<level>(...)] *)
Definition emit (self : CANInterface) (r : LogRecord) (w : World) : World :=
  if logger self
  then {| buses := buses w; message_fifos := message_fifos w;
          tasks := tasks w; log := log w ++ [r] |}
  else w.

(** [(self.interface, self.channel)] *)
Definition conn_key (self : CANInterface) : ConnKey :=
  (interface self, channel self).

(** [(self.interface, self.channel, can_id)] *)
Definition queue_key (self : CANInterface) (can_id : Z) : QueueKey :=
  inr (interface self, channel self, can_id).

(** ** Construction *)

Definition __init__ (interface channel : string) (bitrate max_queue_size : Z)
    (logger : bool) (w : World) : CANInterface * World :=
  let self := {| interface := interface; channel := channel; bitrate := bitrate;
                 max_queue_size := max_queue_size; logger := logger;
                 _threader := {| _running := false |} |} in
  (self, emit self debug_created w).

(** ** The receiver loop *)

(** Lines 51-56, one critical section: file [msg] under its queue key. *)
Definition _loop_insert (self : CANInterface) (msg : Message) (fifos : Store) : Store :=
  let k := queue_key self (arbitration_id msg) in
  match fifos !! k with
  | Some q =>
      let q' := q ++ [msg] in
      if Z.of_nat (length q') >? max_queue_size self
      then <[k := drop 1 q']> fifos
      else <[k := q']> fifos
  | None => <[k := [msg]]> fifos
  end.

(** One pass of the [while] body; [r] is what [bus.recv(1.0)] does if it is
    called in this pass.  [if bus] and [if msg] separate [None] from an
    object: a bus has no falsy instance and [can.Message.__bool__] is always
    true. *)
Definition _loop_body (self : CANInterface) (r : outcome (option Message))
    (w : World) : outcome unit * World :=
  match buses w !! conn_key self with
  | None => (Raise KeyError, w)
  | Some None => (Return tt, w)
  | Some (Some bus) =>
      match r with
      | Raise e => (Raise e, w)
      | Return None => (Return tt, w)
      | Return (Some msg) =>
          let w1 := emit self (debug_received msg) w in
          (Return tt, set_fifos (_loop_insert self msg (message_fifos w1)) w1)
      end
  end.

(** The loop runs while the stop flag is set.  The flag is cleared by another
    thread, so the number of passes is an input: one element of [rs] for each
    pass made before the flag was seen cleared. *)
Fixpoint _loop_passes (self : CANInterface) (rs : list (outcome (option Message)))
    (w : World) : outcome unit * World :=
  match rs with
  | [] => (Return tt, w)
  | r :: rs' =>
      match _loop_body self r w with
      | (Return _, w') => _loop_passes self rs' w'
      | (Raise e, w') => (Raise e, w')
      end
  end.

Definition _loop (self : CANInterface) (rs : list (outcome (option Message)))
    (w : World) : outcome unit * World :=
  if _running (_threader self) then _loop_passes self rs w else (Return tt, w).

(** ** Clearing queues *)

(** The [for] loop of [clear_fifo], lines 65-68.  The membership test is made
    on the bare [can_id]; the subscript uses the tuple and raises [KeyError]
    when the tuple is not a key. *)
Fixpoint clear_each (self : CANInterface) (ids : list Z) (fifos : Store)
    : outcome unit * Store :=
  match ids with
  | [] => (Return tt, fifos)
  | can_id :: ids' =>
      match fifos !! (inl can_id : QueueKey) with
      | Some _ =>
          match fifos !! queue_key self can_id with
          | Some _ => clear_each self ids' (<[queue_key self can_id := []]> fifos)
          | None => (Raise KeyError, fifos)
          end
      | None => clear_each self ids' fifos
      end
  end.

(** [ids] is [None] or a sequence of identifiers (a list, a tuple);
    [not ids] holds for [None] and for the empty sequence, which is also the
    default. *)
Definition clear_fifo (self : CANInterface) (ids : option (list Z)) (w : World)
    : outcome unit * World :=
  match ids with
  | None | Some [] => (Return tt, set_fifos ∅ w)
  | Some ids =>
      let '(r, fifos) := clear_each self ids (message_fifos w) in
      (r, set_fifos fifos w)
  end.

(** ** Lifecycle and sending *)

(** The transport collaborator (package [can]): opening a bus and sending on
    it either succeed or raise. *)
Class Transport := {
  Bus_ : string -> string -> Z -> outcome Bus;
  bus_send : Bus -> Message -> option Q -> outcome unit
}.

(** Modelled from the spec: [Threader.start_threaded] is not among the
    sources.  It starts one background task running its target and sets the
    stop flag; the target here is always the [_loop] of the calling instance,
    recorded by that instance's connection key. *)
Definition start_threaded (t : Threader) (target : ConnKey) (w : World)
    : Threader * World :=
  ({| _running := true |}, add_task target w).

Section Facade.
Context {transport : Transport}.

Definition open (self : CANInterface) (w : World)
    : outcome unit * (CANInterface * World) :=
  match buses w !! conn_key self with
  | Some (Some _) => (Return tt, (self, w))
  | _ =>
      match Bus_ (channel self) (interface self) (bitrate self) with
      | Raise e => (Raise e, (self, w))
      | Return bus =>
          let w1 := set_buses (<[conn_key self := Some bus]> (buses w)) w in
          let '(t, w2) := start_threaded (_threader self) (conn_key self) w1 in
          (Return tt, (set_threader t self, w2))
      end
  end.

(** [open] takes no lock: between its test (line 71) and its writes (lines
    72-73) other threads run.  The two halves of a call that is interrupted
    there: the test, which reads the registry, and the writes, made on the
    state as it is by then. *)
Definition open_needed (self : CANInterface) (w : World) : bool :=
  match buses w !! conn_key self with
  | Some (Some _) => false
  | _ => true
  end.

Definition open_writes (self : CANInterface) (w : World)
    : outcome unit * (CANInterface * World) :=
  match Bus_ (channel self) (interface self) (bitrate self) with
  | Raise e => (Raise e, (self, w))
  | Return bus =>
      let w1 := set_buses (<[conn_key self := Some bus]> (buses w)) w in
      let '(t, w2) := start_threaded (_threader self) (conn_key self) w1 in
      (Return tt, (set_threader t self, w2))
  end.

(** [bus = None] on line 80 rebinds the local name only: the registry is not
    written. *)
Definition close (self : CANInterface) (w : World)
    : outcome unit * (CANInterface * World) :=
  let self1 := set_threader (stop (_threader self)) self in
  match buses w !! conn_key self with
  | None => (Raise KeyError, (self1, w))
  | Some None => (Return tt, (self1, w))
  | Some (Some bus) =>
      (Return tt,
       (self1, set_buses (<[conn_key self := Some (shutdown bus)]> (buses w)) w))
  end.

Definition send (self : CANInterface) (msg : Message) (timeout : option Q)
    (w : World) : outcome bool * World :=
  match buses w !! conn_key self with
  | None => (Raise KeyError, w)
  | Some None => (Raise ValueError, w)
  | Some (Some bus) =>
      match bus_send bus msg timeout with
      | Return _ => (Return true, emit self (debug_sent msg) w)
      | Raise _ => (Return false, emit self (info_timeout timeout msg) w)
      end
  end.

End Facade.

(** ** Receiving *)

(** A number as Python has them: an [int] or a finite [float], an infinity,
    or NaN. *)
Inductive number :=
  | finite (q : Q)
  | pos_inf
  | neg_inf
  | nan.

(** [not x]: a number is falsy when it equals zero; NaN is truthy. *)
Definition is_zero (x : number) : bool :=
  match x with
  | finite q => Qeq_bool q 0
  | _ => false
  end.

(** [x <= 0]; every comparison with NaN is false. *)
Definition le_zero (x : number) : bool :=
  match x with
  | finite q => Qle_bool q 0
  | neg_inf => true
  | pos_inf | nan => false
  end.

(** [1 / x], for an [x] that is not zero. *)
Definition period (x : number) : number :=
  match x with
  | finite q => finite (1 / q)
  | pos_inf | neg_inf => finite 0
  | nan => nan
  end.

(** [elapsed < timeout], for a finite [elapsed]. *)
Definition before (elapsed : Q) (timeout : number) : bool :=
  match timeout with
  | finite t => if Qlt_le_dec elapsed t then true else false
  | pos_inf => true
  | neg_inf | nan => false
  end.

(** What one call of [receive_from] meets: the successive readings of
    [time.time()], what [time.sleep] does with a duration (it returns, or
    raises: [ValueError] on NaN and on a negative duration, [OverflowError]
    on one too long for the platform), and what the other threads do to the
    shared state during each sleep. *)
Record Env := {
  clock : nat -> Q;
  sleep : number -> outcome unit;
  others : nat -> World -> World
}.

(** What a call of [receive_from] does, in order: take the lock and look at
    the queue, print a length, call [time.sleep]. *)
Inductive action :=
  | Poll
  | Print (n : nat)
  | Sleep (d : number).

(** Lines 91-92 and 100-101: [if len(fifo) > 0: return fifo.pop(0)]. *)
Definition pop_front (k : QueueKey) (fifos : Store) : option (Message * Store) :=
  match fifos !! k with
  | Some (m :: q) => Some (m, <[k := q]> fifos)
  | _ => None
  end.

(** [print(len(fifo))] of line 99, when the key is in the store. *)
Definition printed (k : QueueKey) (fifos : Store) : list action :=
  match fifos !! k with
  | Some q => [Print (length q)]
  | None => []
  end.

Abbreviation Received := (option (outcome (option Message) * World * list action)).

(** The loop of lines 88-93.  An exception of [time.sleep] ends the call.
    [fuel] bounds the number of sleeps that return, and [None] is a call
    that is still waiting when it is used up; [n] counts the sleeps made so
    far. *)
Fixpoint wait_forever (fuel : nat) (env : Env) (self : CANInterface) (can_id : Z)
    (f : number) (n : nat) (w : World) : Received :=
  match pop_front (queue_key self can_id) (message_fifos w) with
  | Some (m, fifos) => Some (Return (Some m), set_fifos fifos w, [Poll])
  | None =>
      match sleep env (period f) with
      | Raise e => Some (Raise e, w, [Poll; Sleep (period f)])
      | Return _ =>
          match fuel with
          | O => None
          | S fuel' =>
              match wait_forever fuel' env self can_id f (S n) (others env n w) with
              | Some (r, w', t) => Some (r, w', Poll :: Sleep (period f) :: t)
              | None => None
              end
          end
      end
  end.

(** The loop of lines 96-102; reading [0] of the clock is [start_time],
    reading [S n] is the one of the [while] test that follows [n] sleeps. *)
Fixpoint wait_until (fuel : nat) (env : Env) (self : CANInterface) (can_id : Z)
    (f : number) (start : Q) (timeout : number) (n : nat) (w : World) : Received :=
  if before (clock env (S n) - start) timeout
  then
    let k := queue_key self can_id in
    let pr := printed k (message_fifos w) in
    match pop_front k (message_fifos w) with
    | Some (m, fifos) => Some (Return (Some m), set_fifos fifos w, Poll :: pr)
    | None =>
        match sleep env (period f) with
        | Raise e => Some (Raise e, w, Poll :: pr ++ [Sleep (period f)])
        | Return _ =>
            match fuel with
            | O => None
            | S fuel' =>
                match wait_until fuel' env self can_id f start timeout (S n)
                        (others env n w) with
                | Some (r, w', t) =>
                    Some (r, w', Poll :: pr ++ Sleep (period f) :: t)
                | None => None
                end
            end
        end
    end
  else Some (Return None, w, []).

Definition receive_from (fuel : nat) (env : Env) (self : CANInterface)
    (can_id : Z) (timeout check_frequency : option number) (w : World) : Received :=
  match check_frequency with
  | None => Some (Raise ValueError, w, [])
  | Some f =>
      if is_zero f || le_zero f
      then Some (Raise ValueError, w, [])
      else
        match timeout with
        | None => wait_forever fuel env self can_id f 0 w
        | Some t => wait_until fuel env self can_id f (clock env 0) t 0 w
        end
  end.

(** [check_frequency] is a number and is strictly positive; NaN is not. *)
Definition strictly_positive (check_frequency : option number) : Prop :=
  match check_frequency with
  | Some (finite q) => (0 < q)%Q
  | Some pos_inf => True
  | Some neg_inf | Some nan | None => False
  end.

(** ** The subclass [ZDTCANInterface] *)

Section ZDT.
Context {transport : Transport}.

Definition send_cmd (self : CANInterface) (can_id : Z) (payload : list Byte.byte)
    (timeout : option Q) (w : World) : outcome bool * World :=
  send self {| arbitration_id := can_id; data := payload;
               is_extended_id := true; is_fd := false |} timeout w.

Definition receive_cmd_from (fuel : nat) (env : Env) (self : CANInterface)
    (can_id : Z) (timeout check_frequency : option number) (w : World)
    : option (outcome (option (Z * list Byte.byte)) * World * list action) :=
  match receive_from fuel env self can_id timeout check_frequency w with
  | Some (Return None, w', t) => Some (Return None, w', t)
  | Some (Return (Some msg), w', t) =>
      Some (Return (Some (arbitration_id msg, data msg)), w', t)
  | Some (Raise e, w', t) => Some (Raise e, w', t)
  | None => None
  end.

Definition clear_queues_of (self : CANInterface) (mot_id : Z) (w : World)
    : outcome unit * World :=
  clear_fifo self (Some (map (λ offset, Z.shiftl mot_id 8 + offset) [0; 1; 2; 3; 4])) w.

Definition clear_queues_all (self : CANInterface) (w : World) : outcome unit * World :=
  clear_fifo self (Some []) w.

End ZDT.

(** ** Histories *)

(** The FIFO under a key, empty when the key is absent. *)
Definition fifo_of (k : QueueKey) (fifos : Store) : list Message :=
  default [] (fifos !! k).

(** The [n] most recent elements of [l], oldest first. *)
Definition lastn {A} (n : nat) (l : list A) : list A :=
  drop (length l - n) l.

(** No FIFO of the store is longer than the maximum of [self]. *)
Definition bounded (self : CANInterface) (fifos : Store) : Prop :=
  ∀ k q, fifos !! k = Some q → Z.of_nat (length q) ≤ max_queue_size self.

(** Every key of the store is a tuple, as the annotation of [message_fifos]
    says and as the receiver loop keeps it. *)
Definition tuple_keys (fifos : Store) : Prop :=
  ∀ can_id : Z, fifos !! (inl can_id : QueueKey) = None.

(** A sequence of insertions by the receiver loop of [self]. *)
Definition pushes (self : CANInterface) (msgs : list Message) (fifos : Store) : Store :=
  foldl (λ s m, _loop_insert self m s) fifos msgs.

(** The messages of [msgs] that carry identifier [can_id], in order. *)
Definition with_id (can_id : Z) (msgs : list Message) : list Message :=
  filter (λ m, arbitration_id m = can_id) msgs.

(** No interference: during the call no other thread touches the state. *)
Definition quiet (clk : nat -> Q) (slp : number -> outcome unit) : Env :=
  {| clock := clk; sleep := slp; others := λ _ w, w |}.

(** The shared state after the [j] sleeps numbered [n], [n + 1], ... of a
    call, as the other threads leave it when the call itself changes
    nothing. *)
Fixpoint slept (env : Env) (n j : nat) (w : World) : World :=
  match j with
  | O => w
  | S j' => slept env (S n) j' (others env n w)
  end.

(** The messages a run of the receiver loop receives: those of the passes
    made before [bus.recv] raises, if it does. *)
Fixpoint received (rs : list (outcome (option Message))) : list Message :=
  match rs with
  | [] => []
  | Return (Some msg) :: rs' => msg :: received rs'
  | Return None :: rs' => received rs'
  | Raise _ :: _ => []
  end.

(** What one instance sees happen, in order: a pass of its receiver loop
    that receives [msg], or a call of [receive_from] made while nothing else
    runs. *)
Inductive event :=
  | Arrives (msg : Message)
  | Receives (can_id : Z) (timeout check_frequency : option number)
      (clk : nat -> Q) (slp : number -> outcome unit).

(** Replays a history; alongside the state it keeps what the calls of
    [receive_from] returned, each message with the identifier asked for.
    [None]: some call was still waiting after [fuel] sleeps. *)
Fixpoint replay (fuel : nat) (self : CANInterface) (evs : list event)
    (st : list (Z * Message) * World) : option (list (Z * Message) * World) :=
  match evs with
  | [] => Some st
  | Arrives msg :: evs' =>
      replay fuel self evs' (st.1, (_loop_body self (Return (Some msg)) st.2).2)
  | Receives can_id timeout cf clk slp :: evs' =>
      match receive_from fuel (quiet clk slp) self can_id timeout cf st.2 with
      | None => None
      | Some (Return (Some m), w', _) =>
          replay fuel self evs' (st.1 ++ [(can_id, m)], w')
      | Some (_, w', _) => replay fuel self evs' (st.1, w')
      end
  end.

(** The messages that arrived during a history. *)
Definition arrived (evs : list event) : list Message :=
  omap (λ e, match e with Arrives m => Some m | _ => None end) evs.

(** The messages returned to the calls that asked for [can_id]. *)
Definition delivered_to (can_id : Z) (d : list (Z * Message)) : list Message :=
  (filter (λ p, p.1 = can_id) d).*2.

(** The order kept for one identifier: what arrived for it is, oldest first,
    what has left its FIFO followed by what the FIFO holds; the messages
    delivered are among those that left, in the same order, and are all of
    them when no more arrived than the maximum. *)
Definition in_order (self : CANInterface) (can_id : Z) (pushed : list Message)
    (st : list (Z * Message) * World) : Prop :=
  ∃ older,
    pushed = older ++ fifo_of (queue_key self can_id) (message_fifos st.2) ∧
    delivered_to can_id st.1 `sublist_of` older ∧
    (Z.of_nat (length pushed) ≤ max_queue_size self →
     delivered_to can_id st.1 = older).

Section Calls.
Context {transport : Transport}.

(** A call of the interface by some instance, or a pass of its loop.
    [Opens] is a call of [open] whose test and writes run with nothing in
    between; [OpenWrites] is the writes of a call of [open] that made its
    test earlier and found no bus then. *)
Inductive call :=
  | Opens (self : CANInterface)
  | OpenWrites (self : CANInterface)
  | Closes (self : CANInterface)
  | Sends (self : CANInterface) (msg : Message) (timeout : option Q)
  | Clears (self : CANInterface) (ids : option (list Z))
  | Passes (self : CANInterface) (r : outcome (option Message)).

(** The shared state after a call, whatever its outcome. *)
Definition after (c : call) (w : World) : World :=
  match c with
  | Opens self => (open self w).2.2
  | OpenWrites self => (open_writes self w).2.2
  | Closes self => (close self w).2.2
  | Sends self msg timeout => (send self msg timeout w).2
  | Clears self ids => (clear_fifo self ids w).2
  | Passes self r => (_loop_body self r w).2
  end.

End Calls.


(** ** Runs of the whole interface *)

Section Steps.
Context {transport : Transport}.

(** A step of a run: a call, half call or loop pass as above, a call of
    [receive_from] made while nothing else runs, or a call of the subclass
    [ZDTCANInterface]. *)
Inductive step :=
  | Calls (c : call)
  | ReceivesFrom (self : CANInterface) (can_id : Z)
      (timeout check_frequency : option number) (clk : nat -> Q)
      (slp : number -> outcome unit) (fuel : nat)
  | SendsCmd (self : CANInterface) (can_id : Z) (payload : list Byte.byte)
      (timeout : option Q)
  | ClearsQueuesOf (self : CANInterface) (mot_id : Z)
  | ClearsQueuesAll (self : CANInterface).

(** The shared state after a step.  A [receive_from] that is still waiting
    when its fuel is used up has only made polls that found nothing. *)
Definition after_step (s : step) (w : World) : World :=
  match s with
  | Calls c => after c w
  | ReceivesFrom self can_id timeout cf clk slp fuel =>
      match receive_from fuel (quiet clk slp) self can_id timeout cf w with
      | Some (_, w', _) => w'
      | None => w
      end
  | SendsCmd self can_id payload timeout =>
      (send_cmd self can_id payload timeout w).2
  | ClearsQueuesOf self mot_id => (clear_queues_of self mot_id w).2
  | ClearsQueuesAll self => (clear_queues_all self w).2
  end.

Definition run_steps (ss : list step) (w : World) : World :=
  foldl (λ w s, after_step s w) w ss.

(** The steps that call [clear_fifo] without identifiers. *)
Definition wipes (s : step) : bool :=
  match s with
  | Calls (Clears _ None) | Calls (Clears _ (Some [])) | ClearsQueuesAll _ => true
  | _ => false
  end.

(** The steps that are the writes of an interrupted [open]. *)
Definition late (s : step) : bool :=
  match s with
  | Calls (OpenWrites _) => true
  | _ => false
  end.

(** The instance whose receiver loop makes a pass, if the step is one. *)
Definition passing (s : step) : option CANInterface :=
  match s with
  | Calls (Passes self _) => Some self
  | _ => None
  end.

End Steps.

(** The ways a step that is not a wipe changes the store; only a pass of
    the loop of [passer] inserts. *)
Inductive fifos_change (passer : option CANInterface) (f : Store) : Store -> Prop :=
  | fc_same : fifos_change passer f f
  | fc_insert (self : CANInterface) (msg : Message) :
      passer = Some self -> fifos_change passer f (_loop_insert self msg f)
  | fc_pop (k : QueueKey) (m : Message) (q : list Message) :
      f !! k = Some (m :: q) -> fifos_change passer f (<[k := q]> f)
  | fc_clear (self : CANInterface) (ids : list Z) (r : outcome unit) (f' : Store) :
      clear_each self ids f = (r, f') -> fifos_change passer f f'.

(** The ways a step changes the shared state, the log apart. *)
Inductive world_change (s_wipes s_late : bool) (passer : option CANInterface)
    (w w' : World) : Prop :=
  | wc_store :
      buses w' = buses w -> tasks w' = tasks w ->
      fifos_change passer (message_fifos w) (message_fifos w') ->
      world_change s_wipes s_late passer w w'
  | wc_wipe :
      s_wipes = true ->
      buses w' = buses w -> tasks w' = tasks w -> message_fifos w' = ∅ ->
      world_change s_wipes s_late passer w w'
  | wc_open (k : ConnKey) (bus : Bus) :
      (∀ x, buses w !! k ≠ Some (Some x)) ->
      buses w' = <[k := Some bus]> (buses w) ->
      tasks w' = tasks w ++ [k] ->
      message_fifos w' = message_fifos w ->
      world_change s_wipes s_late passer w w'
  | wc_write (k : ConnKey) (bus : Bus) :
      s_late = true ->
      buses w' = <[k := Some bus]> (buses w) ->
      tasks w' = tasks w ++ [k] ->
      message_fifos w' = message_fifos w ->
      world_change s_wipes s_late passer w w'
  | wc_close (k : ConnKey) (bus : Bus) :
      buses w !! k = Some (Some bus) ->
      buses w' = <[k := Some (shutdown bus)]> (buses w) ->
      tasks w' = tasks w ->
      message_fifos w' = message_fifos w ->
      world_change s_wipes s_late passer w w'.

(** No FIFO of the store is longer than [mx]. *)
Definition within (mx : Z) (fifos : Store) : Prop :=
  ∀ k q, fifos !! k = Some q → Z.of_nat (length q) ≤ mx.

(** The actions of [n] rounds of a waiting loop that find nothing: a poll,
    what it prints, a sleep of one period. *)
Definition rounds (n : nat) (pr : list action) (f : number) : list action :=
  concat (replicate n (Poll :: pr ++ [Sleep (period f)])).

(** ** Sample data *)

Definition can0 (max_size : Z) : CANInterface :=
  {| interface := "socketcan"; channel := "can0"; bitrate := 500000;
     max_queue_size := max_size; logger := true;
     _threader := {| _running := false |} |}.

(** The same instance once [start_threaded] has set its stop flag. *)
Definition running (self : CANInterface) : CANInterface :=
  set_threader {| _running := true |} self.

Definition frame (can_id : Z) (payload : list Byte.byte) : Message :=
  {| arbitration_id := can_id; data := payload;
     is_extended_id := true; is_fd := false |}.

Definition can0_bus : Bus :=
  {| bus_channel := "can0"; bus_interface := "socketcan";
     bus_bitrate := 500000; _is_shutdown := false |}.

(** A transport on which every bus opens, and every send succeeds except
    the sends of an empty payload, which time out. *)
Definition sample_transport : Transport :=
  {| Bus_ := λ ch itf br,
       Return {| bus_channel := ch; bus_interface := itf;
                 bus_bitrate := br; _is_shutdown := false |};
     bus_send := λ _ msg _,
       match data msg with
       | [] => Raise CanTimeoutError
       | _ => Return tt
       end |}.

(** A clock that reads the number of the reading, in seconds. *)
Definition ticking : nat -> Q := λ n, inject_Z (Z.of_nat n).

(** A clock that is set back one second after its first reading. *)
Definition set_back : nat -> Q :=
  λ n, match n with O => 10%Q | S _ => 9%Q end.

(** A [time.sleep] that refuses NaN, negative durations and durations over
    2^63 nanoseconds, and returns otherwise. *)
Definition naps (d : number) : outcome unit :=
  match d with
  | nan => Raise ValueError
  | neg_inf => Raise ValueError
  | pos_inf => Raise OverflowError
  | finite q =>
      if Qlt_le_dec q 0 then Raise ValueError
      else if Qlt_le_dec 9223372036 q then Raise OverflowError
      else Return tt
  end.

(** A second instance on the same connection, with another bitrate. *)
Definition can0_slow : CANInterface :=
  {| interface := "socketcan"; channel := "can0"; bitrate := 125000;
     max_queue_size := 10; logger := false;
     _threader := {| _running := false |} |}.

(** An instance and the shared state after its [open()] on a fresh
    process. *)
Definition opened (self : CANInterface) : CANInterface * World :=
  (open (transport := sample_transport) self empty_world).2.

(** The shared state once a first instance has opened the connection. *)
Definition can0_open : World := (opened (can0 10)).2.

(** Three messages arrive for identifier 5 and one for 6; two calls take
    from 5, one waits on the empty 7 until its deadline. *)
Definition sample_history : list event :=
  [ Arrives (frame 5 [Byte.x01]);
    Arrives (frame 6 [Byte.x02]);
    Arrives (frame 5 [Byte.x03]);
    Receives 5 None (Some (finite 100)) ticking naps;
    Arrives (frame 5 [Byte.x04]);
    Receives 7 (Some (finite 2)) (Some (finite 100)) ticking naps;
    Receives 5 (Some (finite 2)) (Some (finite 100)) ticking naps ].

(** The open connection with one frame waiting under identifier 5. *)
Definition can0_queued : World :=
  (_loop_body (opened (can0 10)).1 (Return (Some (frame 5 [Byte.x01]))) can0_open).2.

(** Other threads that do nothing but for the receiver loop of the first
    instance, which files a frame for identifier 5 during the second sleep
    of the caller. *)
Definition arriving : Env :=
  {| clock := ticking;
     sleep := naps;
     others := λ n w,
       if (n =? 1)%nat
       then (_loop_body (opened (can0 10)).1 (Return (Some (frame 5 [Byte.x01]))) w).2
       else w |}.

(** A run: the connection is opened, two frames arrive, one is taken, the
    connection is closed and opened again, and the queues of motor 0 are
    cleared by identifier. *)
Definition sample_run : list step :=
  [ Calls (Opens (can0 2));
    Calls (Passes (opened (can0 2)).1 (Return (Some (frame 1 [Byte.x01]))));
    Calls (Passes (opened (can0 2)).1 (Return (Some (frame 1 [Byte.x02]))));
    ReceivesFrom (can0 2) 1 None (Some (finite 100)) ticking naps 0;
    Calls (Closes (can0 2));
    Calls (Opens (can0 2));
    ClearsQueuesOf (can0 2) 0 ].
(** * Properties *)

(** ** The receiver loop and the size bound *)

Lemma length_lastn {A} (n : nat) (l : list A) :
  length (lastn n l) = Nat.min n (length l).
Proof. unfold lastn. rewrite length_drop. lia. Qed.

Lemma lastn_all {A} (n : nat) (l : list A) :
  (length l ≤ n)%nat → lastn n l = l.
Proof.
  intros Hl. unfold lastn.
  replace (length l - n)%nat with 0%nat by lia. apply drop_0.
Qed.

Lemma lastn_app_lastn {A} (n : nat) (a b : list A) :
  lastn n (lastn n a ++ b) = lastn n (a ++ b).
Proof.
  unfold lastn at 2.
  rewrite <- (drop_app_le a b (length a - n)) by lia.
  unfold lastn. rewrite drop_drop, length_drop, length_app.
  f_equal. lia.
Qed.

(** Appending and evicting once is taking the last [n], for a queue that was
    within the bound. *)
Lemma evict_is_lastn {A} (n : Z) (q : list A) (x : A) :
  1 ≤ n → Z.of_nat (length q) ≤ n →
  (if Z.of_nat (length (q ++ [x])) >? n
   then drop 1 (q ++ [x]) else q ++ [x]) = lastn (Z.to_nat n) (q ++ [x]).
Proof.
  intros Hn Hq. unfold lastn. rewrite length_app. simpl.
  destruct (Z.gtb_spec (Z.of_nat (length q + 1)) n).
  - f_equal. lia.
  - replace (length q + 1 - Z.to_nat n)%nat with 0%nat by lia. by rewrite drop_0.
Qed.

Lemma loop_insert_other (self : CANInterface) (msg : Message) (fifos : Store)
    (k : QueueKey) :
  k ≠ queue_key self (arbitration_id msg) →
  _loop_insert self msg fifos !! k = fifos !! k.
Proof.
  intros Hk. unfold _loop_insert.
  destruct (fifos !! queue_key self (arbitration_id msg)) as [q|];
    [destruct (_ >? _)|]; by rewrite lookup_insert_ne.
Qed.

Lemma loop_insert_same (self : CANInterface) (msg : Message) (fifos : Store) :
  _loop_insert self msg fifos !! queue_key self (arbitration_id msg) =
  Some match fifos !! queue_key self (arbitration_id msg) with
       | Some q =>
           if Z.of_nat (length (q ++ [msg])) >? max_queue_size self
           then drop 1 (q ++ [msg]) else q ++ [msg]
       | None => [msg]
       end.
Proof.
  unfold _loop_insert.
  destruct (fifos !! queue_key self (arbitration_id msg)) as [q|];
    [destruct (_ >? _)|]; by rewrite lookup_insert_eq.
Qed.

Lemma queue_key_inj (self : CANInterface) (a b : Z) : queue_key self a = queue_key self b → a = b.
Proof. unfold queue_key. congruence. Qed.

Lemma loop_insert_bounded (self : CANInterface) (msg : Message) (fifos : Store) :
  1 ≤ max_queue_size self → bounded self fifos →
  bounded self (_loop_insert self msg fifos).
Proof.
  intros Hmax Hb k q.
  destruct (decide (k = queue_key self (arbitration_id msg))) as [->|Hk].
  - rewrite loop_insert_same. intros [= <-].
    destruct (fifos !! queue_key self (arbitration_id msg)) as [q0|] eqn:E.
    + apply Hb in E.
      destruct (Z.gtb_spec (Z.of_nat (length (q0 ++ [msg]))) (max_queue_size self));
        [|done].
      rewrite length_drop, length_app. simpl. lia.
    + simpl. lia.
  - rewrite loop_insert_other by done. apply Hb.
Qed.

Lemma pushes_present (self : CANInterface) (msgs : list Message) :
  ∀ (fifos : Store) (can_id : Z) (q : list Message),
  1 ≤ max_queue_size self →
  fifos !! queue_key self can_id = Some q →
  Z.of_nat (length q) ≤ max_queue_size self →
  pushes self msgs fifos !! queue_key self can_id =
  Some (lastn (Z.to_nat (max_queue_size self)) (q ++ with_id can_id msgs)).
Proof.
  induction msgs as [|m msgs IH]; intros fifos can_id q Hmax Hq Hlen.
  - simpl. rewrite app_nil_r, lastn_all by lia. done.
  - unfold pushes. simpl. fold (pushes self msgs (_loop_insert self m fifos)).
    unfold with_id.
    destruct (decide (arbitration_id m = can_id)) as [<-|Hne].
    + rewrite filter_cons_True by done.
      pose proof (loop_insert_same self m fifos) as Hs. rewrite Hq in Hs.
      rewrite (IH _ _ _ Hmax Hs).
      * rewrite evict_is_lastn by lia.
        rewrite lastn_app_lastn, <- app_assoc. done.
      * rewrite evict_is_lastn, length_lastn by lia. lia.
    + rewrite filter_cons_False by done.
      apply IH; [done| |done].
      rewrite loop_insert_other; [done|].
      intros E. apply queue_key_inj in E. congruence.
Qed.

Lemma pushes_absent (self : CANInterface) (msgs : list Message) :
  ∀ (fifos : Store) (can_id : Z),
  1 ≤ max_queue_size self →
  fifos !! queue_key self can_id = None →
  pushes self msgs fifos !! queue_key self can_id =
  match with_id can_id msgs with
  | [] => None
  | pushed => Some (lastn (Z.to_nat (max_queue_size self)) pushed)
  end.
Proof.
  induction msgs as [|m msgs IH]; intros fifos can_id Hmax Hq; [done|].
  unfold pushes. simpl. fold (pushes self msgs (_loop_insert self m fifos)).
  unfold with_id.
  destruct (decide (arbitration_id m = can_id)) as [<-|Hne].
  - rewrite filter_cons_True by done.
    pose proof (loop_insert_same self m fifos) as Hs. rewrite Hq in Hs.
    rewrite (pushes_present _ _ _ _ _ Hmax Hs); [done|simpl; lia].
  - rewrite filter_cons_False by done.
    rewrite IH; [done|done|].
    rewrite loop_insert_other; [done|].
    intros E. apply queue_key_inj in E. congruence.
Qed.

Lemma emit_shared (self : CANInterface) (r : LogRecord) (w : World) :
  buses (emit self r w) = buses w ∧ tasks (emit self r w) = tasks w ∧
  message_fifos (emit self r w) = message_fifos w.
Proof. unfold emit. by destruct (logger self). Qed.

(** With a handle in the registry, a run of the loop files what it received,
    in order, and leaves the registry alone. *)
Lemma loop_passes_files (self : CANInterface) (bus : Bus)
    (rs : list (outcome (option Message))) : ∀ w : World,
  buses w !! conn_key self = Some (Some bus) →
  message_fifos (_loop_passes self rs w).2 =
    pushes self (received rs) (message_fifos w).
Proof.
  induction rs as [|[[msg|]|e] rs IH]; intros w Hb; simpl; [done| | |].
  - unfold _loop_body. rewrite Hb. simpl.
    destruct (emit_shared self (debug_received msg) w) as (Eb & _ & Ef).
    rewrite IH by (simpl; by rewrite Eb).
    simpl. by rewrite Ef.
  - unfold _loop_body. rewrite Hb. by apply IH.
  - unfold _loop_body. by rewrite Hb.
Qed.

Lemma loop_passes_bounded (self : CANInterface)
    (rs : list (outcome (option Message))) : ∀ w : World,
  1 ≤ max_queue_size self →
  bounded self (message_fifos w) →
  bounded self (message_fifos (_loop_passes self rs w).2).
Proof.
  induction rs as [|r rs IH]; intros w Hmax Hw; simpl; [done|].
  unfold _loop_body.
  destruct (buses w !! conn_key self) as [[bus|]|]; [|by apply IH|done].
  destruct r as [[msg|]|e]; [|by apply IH|done].
  apply IH; [done|]. simpl. apply loop_insert_bounded; [done|].
  by destruct (emit_shared self (debug_received msg) w) as (_ & _ & ->).
Qed.

(** C1 (the code departs from it).  With a maximum queue size of 0, the
    first message received for an identifier opens a FIFO that holds that
    message: its length, 1, is over the maximum, and after this single push
    (more pushes than the maximum) the FIFO is not the most recent 0
    messages.  The branch that creates the FIFO (line 56) skips the size
    test that the branch appending to an existing FIFO makes (line 53). *)
Theorem first_push_exceeds_zero_maximum :
  let self := (opened (can0 0)).1 in
  let w := (_loop self [Return (Some (frame 5 []))] (opened (can0 0)).2).2 in
  max_queue_size self = 0 ∧
  message_fifos w !! queue_key self 5 = Some [frame 5 []] ∧
  ¬ (Z.of_nat (length [frame 5 []]) ≤ max_queue_size self) ∧
  message_fifos w !! queue_key self 5 ≠
    Some (lastn (Z.to_nat (max_queue_size self)) [frame 5 []]).
Proof.
  cbv zeta. split; [by vm_compute|]. split; [by vm_compute|]. split.
  - vm_compute. intros H. by apply H.
  - vm_compute. discriminate.
Qed.

Lemma lastn_app_ge {A} (n : nat) (a b : list A) :
  (n ≤ length b)%nat → lastn n (a ++ b) = lastn n b.
Proof.
  intros Hn. unfold lastn. rewrite drop_app, length_app.
  rewrite drop_ge by lia. simpl. f_equal. lia.
Qed.

Lemma loop_insert_keeps_bound (self : CANInterface) (msg : Message) (fifos : Store)
    (k : QueueKey) :
  1 ≤ max_queue_size self →
  Z.of_nat (length (fifo_of k fifos)) ≤ max_queue_size self →
  Z.of_nat (length (fifo_of k (_loop_insert self msg fifos))) ≤ max_queue_size self.
Proof.
  intros Hmax Hk. unfold fifo_of in *.
  destruct (decide (k = queue_key self (arbitration_id msg))) as [->|Hne].
  - rewrite loop_insert_same. simpl.
    destruct (fifos !! queue_key self (arbitration_id msg)) as [q0|]; simpl in *.
    + destruct (Z.gtb_spec (Z.of_nat (length (q0 ++ [msg]))) (max_queue_size self));
        [|done].
      rewrite length_drop, length_app. simpl. lia.
    + lia.
  - by rewrite loop_insert_other.
Qed.

Lemma pushes_from (self : CANInterface) (msgs : list Message) (fifos : Store)
    (can_id : Z) :
  1 ≤ max_queue_size self →
  Z.of_nat (length (fifo_of (queue_key self can_id) fifos)) ≤ max_queue_size self →
  with_id can_id msgs ≠ [] →
  pushes self msgs fifos !! queue_key self can_id =
    Some (lastn (Z.to_nat (max_queue_size self))
            (fifo_of (queue_key self can_id) fifos ++ with_id can_id msgs)).
Proof.
  intros Hmax Hlen Hne. unfold fifo_of in *.
  destruct (fifos !! queue_key self can_id) as [q0|] eqn:Hq; simpl in *.
  - by apply pushes_present.
  - rewrite pushes_absent by done. by destruct (with_id can_id msgs).
Qed.

(** With a maximum of at least 1 the size bound holds.  An insertion by
    the receiver loop leaves within the maximum every FIFO that was within
    it, or absent, before.  And a run of the loop on an open connection,
    for an identifier whose FIFO was within the maximum or absent (never
    used, or used and drained, or still holding messages), leaves under it
    the most recent of the messages it held and received, at most the
    maximum of them, oldest first: exactly the most recent maximum of the
    messages received when more than the maximum were. *)
Theorem loop_keeps_most_recent (self : CANInterface) :
  1 ≤ max_queue_size self →
  (∀ (fifos : Store) (msg : Message) (k : QueueKey),
     Z.of_nat (length (fifo_of k fifos)) ≤ max_queue_size self →
     Z.of_nat (length (fifo_of k (_loop_insert self msg fifos))) ≤ max_queue_size self) ∧
  (∀ (w : World) (bus : Bus) (rs : list (outcome (option Message))) (can_id : Z),
     _running (_threader self) = true →
     buses w !! conn_key self = Some (Some bus) →
     Z.of_nat (length (fifo_of (queue_key self can_id) (message_fifos w)))
       ≤ max_queue_size self →
     with_id can_id (received rs) ≠ [] →
     message_fifos (_loop self rs w).2 !! queue_key self can_id =
       Some (lastn (Z.to_nat (max_queue_size self))
               (fifo_of (queue_key self can_id) (message_fifos w) ++
                with_id can_id (received rs))) ∧
     (max_queue_size self < Z.of_nat (length (with_id can_id (received rs))) →
      message_fifos (_loop self rs w).2 !! queue_key self can_id =
        Some (lastn (Z.to_nat (max_queue_size self)) (with_id can_id (received rs))) ∧
      length (lastn (Z.to_nat (max_queue_size self)) (with_id can_id (received rs)))
        = Z.to_nat (max_queue_size self))).
Proof.
  intros Hmax. split.
  - intros fifos msg k. by apply loop_insert_keeps_bound.
  - intros w bus rs can_id Hrun Hb Hlen Hne.
    assert (message_fifos (_loop self rs w).2 !! queue_key self can_id =
            Some (lastn (Z.to_nat (max_queue_size self))
                    (fifo_of (queue_key self can_id) (message_fifos w) ++
                     with_id can_id (received rs)))) as Hq.
    { unfold _loop. rewrite Hrun, (loop_passes_files self bus) by done.
      by apply pushes_from. }
    split; [done|]. intros HN. split.
    + rewrite Hq, lastn_app_ge by lia. done.
    + rewrite length_lastn. lia.
Qed.

Lemma loop_keeps_most_recent_witness :
  let self := (opened (can0 2)).1 in
  let rs := [Return (Some (frame 5 [])); Return None; Return (Some (frame 6 []));
             Return (Some (frame 5 [Byte.x01])); Return (Some (frame 5 [Byte.x02]))] in
  message_fifos (_loop self rs (opened (can0 2)).2).2 !! queue_key self 5
  = Some [frame 5 [Byte.x01]; frame 5 [Byte.x02]].
Proof.
  cbv zeta.
  pose proof (loop_keeps_most_recent (opened (can0 2)).1 ltac:(vm_compute; discriminate))
    as (_ & H).
  refine (proj1 (H (opened (can0 2)).2 can0_bus
                  [Return (Some (frame 5 [])); Return None;
                   Return (Some (frame 6 []));
                   Return (Some (frame 5 [Byte.x01]));
                   Return (Some (frame 5 [Byte.x02]))] 5 _ _ _ _)).
  - reflexivity.
  - by vm_compute.
  - vm_compute. discriminate.
  - vm_compute. discriminate.
Defined.

(** ** Clearing by identifier *)

Lemma set_fifos_same (w : World) : set_fifos (message_fifos w) w = w.
Proof. by destruct w. Qed.

(** The receiver loop only ever adds tuple keys. *)
Lemma loop_insert_tuple_keys (self : CANInterface) (msg : Message) (fifos : Store) :
  tuple_keys fifos → tuple_keys (_loop_insert self msg fifos).
Proof.
  intros Ht can_id. rewrite loop_insert_other; [apply Ht|]. discriminate.
Qed.

(** On a store whose keys are tuples the test [can_id in self.message_fifos]
    fails for every identifier, and the loop of [clear_fifo] clears nothing. *)
Lemma clear_each_tuple_keys (self : CANInterface) (ids : list Z) (fifos : Store) :
  tuple_keys fifos → clear_each self ids fifos = (Return tt, fifos).
Proof.
  intros Ht. induction ids as [|can_id ids IH]; [done|].
  simpl. by rewrite Ht.
Qed.

Lemma clear_fifo_ids_no_effect (self : CANInterface) (ids : list Z) (w : World) :
  tuple_keys (message_fifos w) → ids ≠ [] →
  clear_fifo self (Some ids) w = (Return tt, w).
Proof.
  intros Ht Hne. destruct ids as [|can_id ids]; [done|].
  unfold clear_fifo. rewrite clear_each_tuple_keys by done.
  by rewrite set_fifos_same.
Qed.

Lemma clear_queues_of_no_effect (self : CANInterface) (mot_id : Z) (w : World) :
  tuple_keys (message_fifos w) → clear_queues_of self mot_id w = (Return tt, w).
Proof. intros Ht. by apply clear_fifo_ids_no_effect. Qed.

(** C2 (the code departs from it).  With one message queued under
    [("socketcan", "can0", 5)], [clear_fifo([5])] on that connection returns
    normally and leaves the whole state as it was: the FIFO named by the
    identifier still holds its message. *)
Theorem clear_fifo_keeps_named_fifo :
  let self := can0 10 in
  let w := set_fifos {[ queue_key self 5 := [frame 5 [Byte.x01]] ]} empty_world in
  clear_fifo self (Some [5]) w = (Return tt, w) ∧
  message_fifos w !! queue_key self 5 = Some [frame 5 [Byte.x01]].
Proof.
  cbv zeta. split; [|by vm_compute].
  apply clear_fifo_ids_no_effect; [|done].
  intros can_id. by vm_compute.
Qed.

(** ** Closing *)

(** [close] never writes [None] into the registry: a handle that was there
    is shut down and stays under its key. *)
Lemma close_keeps_entry (self : CANInterface) (w : World) (bus : Bus) :
  buses w !! conn_key self = Some (Some bus) →
  (close self w).1 = Return tt ∧
  buses (close self w).2.2 !! conn_key self = Some (Some (shutdown bus)).
Proof.
  intros Hb. unfold close. rewrite Hb. simpl. by rewrite lookup_insert_eq.
Qed.

Lemma close_absent_key (self : CANInterface) (w : World) :
  buses w !! conn_key self = None →
  close self w = (Raise KeyError, (set_threader (stop (_threader self)) self, w)).
Proof. intros Hb. unfold close. by rewrite Hb. Qed.

(** A second [close] right after one that returned changes nothing more. *)
Lemma close_twice (self : CANInterface) (w : World) :
  (close self w).1 = Return tt →
  close (close self w).2.1 (close self w).2.2 = (Return tt, (close self w).2).
Proof.
  unfold close.
  destruct (buses w !! conn_key self) as [[bus|]|] eqn:Hb; simpl; [| |done].
  - intros _. change (conn_key (set_threader _ self)) with (conn_key self).
    rewrite lookup_insert_eq. unfold set_buses. simpl.
    by rewrite insert_insert_eq.
  - intros _. change (conn_key (set_threader _ self)) with (conn_key self).
    by rewrite Hb.
Qed.

(** C3 (the code departs from it).  After [open()] then [close()] on a fresh
    instance, the registry still maps the connection key to the bus object,
    now shut down, and not to [None]. *)
Theorem close_leaves_handle_in_registry :
  let self := can0 10 in
  let opened := (open (transport := sample_transport) self empty_world).2 in
  let closed := close opened.1 opened.2 in
  closed.1 = Return tt ∧
  buses closed.2.2 !! conn_key self = Some (Some (shutdown can0_bus)) ∧
  buses closed.2.2 !! conn_key self ≠ Some None.
Proof. cbv zeta. split; [|split]; by vm_compute. Qed.

(** C4 (the code departs from it).  [close()] on a fresh instance, before any
    [open()] for its connection key, raises [KeyError]: the registry is
    subscripted with a key it does not hold. *)
Theorem close_before_open_raises :
  close (can0 10) empty_world =
    (Raise KeyError, (set_threader (stop (_threader (can0 10))) (can0 10), empty_world)).
Proof. by apply close_absent_key. Qed.

(** ** Sending *)

Section Sending.
Context {transport : Transport}.

(** C6.  [send] raises [KeyError] (the spec's NotOpenError) when the registry
    has no entry for the connection key of the instance, and [ValueError]
    (HandleUnavailableError) when the entry is [None]; in both cases the call
    ends by the exception, with no boolean returned and the state
    untouched. *)
Theorem send_raises_when_not_open (self : CANInterface) (msg : Message)
    (timeout : option Q) (w : World) :
  (buses w !! conn_key self = None →
   send self msg timeout w = (Raise KeyError, w)) ∧
  (buses w !! conn_key self = Some None →
   send self msg timeout w = (Raise ValueError, w)).
Proof. unfold send. split; intros ->; reflexivity. Qed.

(** C7.  With a handle under the connection key: when the send of the
    transport raises, whatever the exception, [send] returns [False] (and
    logs at info level when there is a logger); when it succeeds, [send]
    returns [True]. *)
Theorem send_absorbs_transport_failure (self : CANInterface) (msg : Message)
    (timeout : option Q) (w : World) (bus : Bus) :
  buses w !! conn_key self = Some (Some bus) →
  (∀ e, bus_send bus msg timeout = Raise e →
     send self msg timeout w =
       (Return false, emit self (info_timeout timeout msg) w)) ∧
  (bus_send bus msg timeout = Return tt →
     send self msg timeout w = (Return true, emit self (debug_sent msg) w)).
Proof.
  intros Hb. unfold send. rewrite Hb. split.
  - by intros e ->.
  - by intros ->.
Qed.

End Sending.

Lemma send_raises_when_not_open_witness :
  send (transport := sample_transport) (can0 10) (frame 5 [Byte.x01]) None empty_world
    = (Raise KeyError, empty_world) ∧
  send (transport := sample_transport) (can0 10) (frame 5 [Byte.x01]) None
      (set_buses {[ conn_key (can0 10) := None ]} empty_world)
    = (Raise ValueError, set_buses {[ conn_key (can0 10) := None ]} empty_world).
Proof.
  split.
  - apply (send_raises_when_not_open (transport := sample_transport)). reflexivity.
  - apply (send_raises_when_not_open (transport := sample_transport)). reflexivity.
Defined.

Lemma send_absorbs_transport_failure_witness :
  let w := set_buses {[ conn_key (can0 10) := Some can0_bus ]} empty_world in
  send (transport := sample_transport) (can0 10) (frame 5 []) (Some 1%Q) w
    = (Return false, emit (can0 10) (info_timeout (Some 1%Q) (frame 5 [])) w) ∧
  send (transport := sample_transport) (can0 10) (frame 5 [Byte.x01]) None w
    = (Return true, emit (can0 10) (debug_sent (frame 5 [Byte.x01])) w).
Proof.
  cbv zeta. split.
  - refine (proj1 (send_absorbs_transport_failure (transport := sample_transport)
                     _ _ _ _ can0_bus _) CanTimeoutError _); reflexivity.
  - refine (proj2 (send_absorbs_transport_failure (transport := sample_transport)
                     _ _ _ _ can0_bus _) _); reflexivity.
Defined.

(** ** Receiving: validation and deadline *)

Lemma frequency_guard_passes (f : Q) :
  (0 < f)%Q → is_zero (finite f) || le_zero (finite f) = false.
Proof.
  intros Hf. apply orb_false_intro; simpl.
  - apply not_true_is_false. intros E%Qeq_bool_iff. lra.
  - apply not_true_is_false. intros E%Qle_bool_iff. lra.
Qed.

Lemma frequency_guard_rejects (f : Q) :
  ¬ (0 < f)%Q → is_zero (finite f) || le_zero (finite f) = true.
Proof.
  intros Hf. apply orb_true_intro. right. apply Qle_bool_iff. lra.
Qed.

(** The guard of line 84 lets through exactly the strictly positive numbers
    and NaN. *)
Lemma frequency_guard_spec (f : number) :
  is_zero f || le_zero f = false ↔ strictly_positive (Some f) ∨ f = nan.
Proof.
  destruct f as [q| | |]; simpl.
  - destruct (Qlt_le_dec 0 q) as [Hlt|Hle].
    + change (is_zero (finite q) || le_zero (finite q) = false ↔ (0 < q)%Q ∨ finite q = nan).
      rewrite frequency_guard_passes by done. split; [by left|done].
    + change (is_zero (finite q) || le_zero (finite q) = false ↔ (0 < q)%Q ∨ finite q = nan).
      rewrite frequency_guard_rejects by lra.
      split; [done|intros [?|[=]]; lra].
  - split; [by left|done].
  - split; [done|by intros [[]|[=]]].
  - split; [by right|done].
Qed.

(** What the guard does reject ([None], zero, a negative number, minus
    infinity) is rejected with [ValueError] before the clock is read or any
    queue is polled, whatever the timeout and the other threads. *)
Lemma receive_from_rejects_frequency (fuel : nat) (env : Env)
    (self : CANInterface) (can_id : Z) (timeout check_frequency : option number)
    (w : World) :
  ¬ strictly_positive check_frequency → check_frequency ≠ Some nan →
  receive_from fuel env self can_id timeout check_frequency w =
    Some (Raise ValueError, w, []).
Proof.
  intros Hcf Hnan. unfold receive_from.
  destruct check_frequency as [f|]; [|done].
  destruct (is_zero f || le_zero f) eqn:E; [done|].
  apply frequency_guard_spec in E as [E| ->]; [by destruct Hcf|by destruct Hnan].
Qed.

(** C8 (the code departs from it).  NaN is not strictly positive, yet
    neither [not check_frequency] nor [check_frequency <= 0] holds of it:
    [receive_from(5, None, nan)] passes the guard of line 84, polls, and
    with a message waiting under identifier 5 pops it and returns it. *)
Theorem receive_from_accepts_nan :
  ¬ strictly_positive (Some nan) ∧
  message_fifos can0_queued !! queue_key (can0 10) 5 = Some [frame 5 [Byte.x01]] ∧
  receive_from 0 (quiet ticking naps) (can0 10) 5 None (Some nan) can0_queued =
    Some (Return (Some (frame 5 [Byte.x01])),
          set_fifos (<[queue_key (can0 10) 5 := []]> (message_fifos can0_queued))
            can0_queued,
          [Poll]).
Proof. split; [by intros []|]. split; by vm_compute. Qed.

(** C10, as stated, fails when the clock is set back between the reading of
    [start_time] and the first test of the loop: with readings 10 then 9 and
    a timeout of 0, [time.time() - start_time < timeout] holds, and the call
    polls, pops the waiting message and returns it. *)
Lemma receive_from_polls_when_clock_steps_back :
  message_fifos can0_queued !! queue_key (can0 10) 5 = Some [frame 5 [Byte.x01]] ∧
  receive_from 0 (quiet set_back naps) (can0 10) 5 (Some (finite 0))
      (Some (finite 100)) can0_queued =
    Some (Return (Some (frame 5 [Byte.x01])),
          set_fifos (<[queue_key (can0 10) 5 := []]> (message_fifos can0_queued))
            can0_queued,
          [Poll; Print 1]).
Proof. split; by vm_compute. Qed.

(** C10 (amended).  With a [check_frequency] that passes the guard and a
    timeout that is zero or negative, provided the clock has not been set
    back between the reading of [start_time] and the first test of the
    loop, [receive_from] returns [None] at that first test: it polls
    nothing, pops nothing even from a non-empty FIFO, never sleeps, and
    leaves the state as it was. *)
Theorem receive_from_nonpositive_timeout (fuel : nat) (env : Env)
    (self : CANInterface) (can_id : Z) (timeout f : number) (w : World) :
  is_zero f || le_zero f = false →
  le_zero timeout = true →
  (clock env 0 <= clock env 1)%Q →
  receive_from fuel env self can_id (Some timeout) (Some f) w =
    Some (Return None, w, []).
Proof.
  intros Hf Ht Hclk. unfold receive_from. rewrite Hf.
  assert (before (clock env 1 - clock env 0) timeout = false) as Hb.
  { destruct timeout as [t| | |]; simpl in *; try done.
    apply Qle_bool_iff in Ht.
    destruct (Qlt_le_dec (clock env 1 - clock env 0) t); [lra|done]. }
  destruct fuel; simpl; by rewrite Hb.
Qed.

Lemma receive_from_nonpositive_timeout_witness :
  receive_from 3 (quiet ticking naps) (can0 10) 5 (Some (finite 0))
      (Some (finite 100)) can0_queued =
    Some (Return None, can0_queued, []).
Proof.
  apply receive_from_nonpositive_timeout.
  - reflexivity.
  - reflexivity.
  - vm_compute. discriminate.
Defined.

(** ** Receiving: order of delivery *)

(** A poll on a non-empty FIFO returns its oldest message at once, for any
    timeout that lets the first test pass, and touches no other key. *)
Lemma receive_from_pops_oldest (fuel : nat) (env : Env) (self : CANInterface)
    (can_id : Z) (timeout : option number) (f : Q) (w : World) (m : Message)
    (q : list Message) :
  (0 < f)%Q →
  (∀ t, timeout = Some t → before (clock env 1 - clock env 0) t = true) →
  message_fifos w !! queue_key self can_id = Some (m :: q) →
  ∃ t, receive_from fuel env self can_id timeout (Some (finite f)) w =
    Some (Return (Some m),
          set_fifos (<[queue_key self can_id := q]> (message_fifos w)) w, t).
Proof.
  intros Hf Ht Hq. unfold receive_from.
  rewrite frequency_guard_passes by done.
  destruct timeout as [t|].
  - specialize (Ht t eq_refl).
    destruct fuel; simpl; rewrite Ht; unfold pop_front; rewrite Hq; eauto.
  - destruct fuel; simpl; unfold pop_front; rewrite Hq; eauto.
Qed.

Lemma pop_front_spec (k : QueueKey) (fifos fifos' : Store) (m : Message) :
  pop_front k fifos = Some (m, fifos') →
  ∃ q, fifos !! k = Some (m :: q) ∧ fifos' = <[k := q]> fifos.
Proof.
  unfold pop_front. destruct (fifos !! k) as [[|m' q]|]; [done| |done].
  intros [= <- <-]. eauto.
Qed.

(** Whatever the other threads do during the sleeps, a call that returns or
    raises has changed the state in one way at most: by taking the head of
    the FIFO it was asked for, as that FIFO stood at the successful poll. *)
Lemma wait_forever_takes_head (env : Env) (self : CANInterface) (can_id : Z)
    (f : number) (fuel : nat) : ∀ (n : nat) (w : World) r w' t,
  wait_forever fuel env self can_id f n w = Some (r, w', t) →
  ∃ j,
    (w' = slept env n j w ∧ ∀ m, r ≠ Return (Some m)) ∨
    ∃ m q,
      message_fifos (slept env n j w) !! queue_key self can_id = Some (m :: q) ∧
      r = Return (Some m) ∧
      w' = set_fifos (<[queue_key self can_id := q]> (message_fifos (slept env n j w)))
             (slept env n j w).
Proof.
  induction fuel as [|fuel IH]; intros n w r w' t; simpl.
  - destruct (pop_front _ _) as [[m fifos]|] eqn:Hp.
    + intros [= <- <- <-]. apply pop_front_spec in Hp as (q & Hq & ->).
      exists 0%nat. right. by exists m, q.
    + destruct (sleep env (period f)) as [[]|e]; [done|].
      intros [= <- <- <-]. exists 0%nat. by left.
  - destruct (pop_front _ _) as [[m fifos]|] eqn:Hp.
    + intros [= <- <- <-]. apply pop_front_spec in Hp as (q & Hq & ->).
      exists 0%nat. right. by exists m, q.
    + destruct (sleep env (period f)) as [[]|e];
        [|intros [= <- <- <-]; exists 0%nat; by left].
      destruct (wait_forever _ _ _ _ _ _ _) as [[[r1 w1] t1]|] eqn:Hw; [|done].
      intros [= <- <- <-].
      apply IH in Hw as [j H]. by exists (S j).
Qed.

Lemma wait_until_takes_head (env : Env) (self : CANInterface) (can_id : Z)
    (f : number) (start : Q) (timeout : number) (fuel : nat) :
  ∀ (n : nat) (w : World) r w' t,
  wait_until fuel env self can_id f start timeout n w = Some (r, w', t) →
  ∃ j,
    (w' = slept env n j w ∧ ∀ m, r ≠ Return (Some m)) ∨
    ∃ m q,
      message_fifos (slept env n j w) !! queue_key self can_id = Some (m :: q) ∧
      r = Return (Some m) ∧
      w' = set_fifos (<[queue_key self can_id := q]> (message_fifos (slept env n j w)))
             (slept env n j w).
Proof.
  induction fuel as [|fuel IH]; intros n w r w' t; simpl.
  - destruct (before _ _); [|intros [= <- <- <-]; exists 0%nat; by left].
    destruct (pop_front _ _) as [[m fifos]|] eqn:Hp.
    + intros [= <- <- <-]. apply pop_front_spec in Hp as (q & Hq & ->).
      exists 0%nat. right. by exists m, q.
    + destruct (sleep env (period f)) as [[]|e]; [done|].
      intros [= <- <- <-]. exists 0%nat. by left.
  - destruct (before _ _); [|intros [= <- <- <-]; exists 0%nat; by left].
    destruct (pop_front _ _) as [[m fifos]|] eqn:Hp.
    + intros [= <- <- <-]. apply pop_front_spec in Hp as (q & Hq & ->).
      exists 0%nat. right. by exists m, q.
    + destruct (sleep env (period f)) as [[]|e];
        [|intros [= <- <- <-]; exists 0%nat; by left].
      destruct (wait_until _ _ _ _ _ _ _ _ _) as [[[r1 w1] t1]|] eqn:Hw; [|done].
      intros [= <- <- <-].
      apply IH in Hw as [j H]. by exists (S j).
Qed.

Lemma receive_from_takes_head (fuel : nat) (env : Env) (self : CANInterface)
    (can_id : Z) (timeout cf : option number) (w : World) r w' t :
  receive_from fuel env self can_id timeout cf w = Some (r, w', t) →
  ∃ j,
    (w' = slept env 0 j w ∧ ∀ m, r ≠ Return (Some m)) ∨
    ∃ m q,
      message_fifos (slept env 0 j w) !! queue_key self can_id = Some (m :: q) ∧
      r = Return (Some m) ∧
      w' = set_fifos (<[queue_key self can_id := q]> (message_fifos (slept env 0 j w)))
             (slept env 0 j w).
Proof.
  unfold receive_from.
  destruct cf as [f|]; [|intros [= <- <- <-]; exists 0%nat; by left].
  destruct (_ || _); [intros [= <- <- <-]; exists 0%nat; by left|].
  destruct timeout as [tm|].
  - apply wait_until_takes_head.
  - apply wait_forever_takes_head.
Qed.

Lemma slept_quiet (clk : nat -> Q) (slp : number -> outcome unit) (j : nat) :
  ∀ (n : nat) (w : World), slept (quiet clk slp) n j w = w.
Proof. induction j as [|j IH]; intros n w; [done|]. simpl. apply IH. Qed.

(** While nothing else runs, a call either leaves the state alone or takes
    the head of the FIFO it was asked for. *)
Lemma receive_from_quiet (fuel : nat) (clk : nat -> Q)
    (slp : number -> outcome unit) (self : CANInterface)
    (can_id : Z) (timeout cf : option number) (w : World) r w' t :
  receive_from fuel (quiet clk slp) self can_id timeout cf w = Some (r, w', t) →
  (w' = w ∧ ∀ m, r ≠ Return (Some m)) ∨
  ∃ m fifos,
    pop_front (queue_key self can_id) (message_fifos w) = Some (m, fifos) ∧
    r = Return (Some m) ∧ w' = set_fifos fifos w.
Proof.
  intros [j H]%receive_from_takes_head. rewrite slept_quiet in H.
  destruct H as [H|(m & q & Hq & -> & ->)]; [by left|].
  right. exists m, (<[queue_key self can_id := q]> (message_fifos w)).
  unfold pop_front. by rewrite Hq.
Qed.

Lemma delivered_to_snoc (can_id id : Z) (d : list (Z * Message)) (m : Message) :
  delivered_to can_id (d ++ [(id, m)]) =
  delivered_to can_id d ++ (if decide (id = can_id) then [m] else []).
Proof.
  unfold delivered_to. rewrite filter_app, fmap_app. f_equal.
  destruct (decide (id = can_id)) as [->|Hne].
  - by rewrite filter_cons_True.
  - by rewrite filter_cons_False.
Qed.

Lemma in_order_arrives (self : CANInterface) (can_id : Z) (pushed : list Message)
    (d : list (Z * Message)) (w : World) (bus : Bus) (msg : Message) :
  buses w !! conn_key self = Some (Some bus) →
  in_order self can_id pushed (d, w) →
  in_order self can_id (pushed ++ with_id can_id [msg])
    (d, (_loop_body self (Return (Some msg)) w).2).
Proof.
  intros Hb (older & Hp & Hsub & Hall). unfold _loop_body. rewrite Hb.
  unfold in_order, fifo_of in *. simpl in *.
  replace (message_fifos (emit self (debug_received msg) w))
    with (message_fifos w) by (unfold emit; by destruct (logger self)).
  unfold with_id.
  destruct (decide (arbitration_id msg = can_id)) as [<-|Hne].
  - rewrite filter_cons_True, filter_nil by done.
    rewrite loop_insert_same.
    destruct (message_fifos w !! queue_key self (arbitration_id msg))
      as [q|]; simpl in *.
    + destruct (Z.gtb_spec (Z.of_nat (length (q ++ [msg]))) (max_queue_size self))
        as [Hgt|Hle].
      * destruct (q ++ [msg]) as [|x tl] eqn:E; [by destruct q|].
        exists (older ++ [x]). split; [|split].
        -- rewrite Hp, <- !app_assoc, E. done.
        -- by apply sublist_inserts_r.
        -- apply (f_equal length) in E.
           rewrite Hp, !length_app in *. simpl in *. lia.
      * exists older. split; [|split].
        -- by rewrite Hp, app_assoc.
        -- done.
        -- intros Hl. apply Hall. rewrite length_app in Hl. lia.
    + exists older. split; [|split].
      * by rewrite Hp, app_nil_r.
      * done.
      * intros Hl. apply Hall. rewrite length_app in Hl. lia.
  - rewrite filter_cons_False, filter_nil by done. simpl. rewrite app_nil_r.
    rewrite loop_insert_other; [by exists older|].
    intros E%queue_key_inj. congruence.
Qed.

Lemma in_order_receives (self : CANInterface) (can_id id : Z)
    (pushed : list Message) (d : list (Z * Message)) (w : World)
    (m : Message) (fifos : Store) :
  in_order self can_id pushed (d, w) →
  pop_front (queue_key self id) (message_fifos w) = Some (m, fifos) →
  in_order self can_id pushed (d ++ [(id, m)], set_fifos fifos w).
Proof.
  intros (older & Hp & Hsub & Hall) (q & Hq & ->)%pop_front_spec.
  unfold in_order, fifo_of in *. simpl in *. rewrite delivered_to_snoc.
  destruct (decide (id = can_id)) as [->|Hne].
  - rewrite Hq in Hp. simpl in Hp. rewrite lookup_insert_eq. simpl.
    exists (older ++ [m]). split; [|split].
    + by rewrite <- app_assoc.
    + by apply sublist_app.
    + intros Hl. by rewrite Hall.
  - rewrite app_nil_r, lookup_insert_ne; [by exists older|].
    intros E%queue_key_inj. congruence.
Qed.

Lemma replay_in_order (fuel : nat) (self : CANInterface) (can_id : Z) (bus : Bus)
    (evs : list event) : ∀ (pushed : list Message) st st',
  buses st.2 !! conn_key self = Some (Some bus) →
  in_order self can_id pushed st →
  replay fuel self evs st = Some st' →
  in_order self can_id (pushed ++ with_id can_id (arrived evs)) st'.
Proof.
  induction evs as [|[msg|id timeout cf clk slp] evs IH];
    intros pushed [d w] st' Hb Hin.
  - simpl. intros [= <-]. by rewrite app_nil_r.
  - simpl. intros Hr.
    replace (pushed ++ with_id can_id (msg :: arrived evs))
      with ((pushed ++ with_id can_id [msg]) ++ with_id can_id (arrived evs)).
    + eapply IH; [|by eapply in_order_arrives|exact Hr].
      simpl in *. unfold _loop_body. rewrite Hb. simpl.
      unfold emit. by destruct (logger self).
    + rewrite <- app_assoc. f_equal. unfold with_id.
      by rewrite <- filter_app.
  - simpl.
    destruct (receive_from _ _ _ _ _ _ _) as [[[r w1] t]|] eqn:Hrecv; [|done].
    apply receive_from_quiet in Hrecv
      as [[-> Hr]|(m & fifos & Hp & -> & ->)].
    + intros Hrep.
      assert (replay fuel self evs (d, w) = Some st') as Hrep'.
      { destruct r as [[m|]|e]; [by destruct (Hr m)|done|done]. }
      by eapply IH.
    + intros Hrep. eapply IH; [|by eapply in_order_receives|exact Hrep]. done.
Qed.

(** C5.  For every identifier of an instance:
    - a call of [receive_from] that finds the FIFO non-empty (valid
      frequency, deadline not passed at the first test) returns at once the
      oldest message of the FIFO and removes it, leaving every other key as
      it was;
    - whatever the other threads do during its sleeps, a call that returns
      has changed the state in one way at most: by taking the head of the
      FIFO of its identifier, as the FIFO stood at the successful poll;
    - in any history of one instance on an open connection (passes of its
      receiver loop that receive messages, with any identifiers, and calls
      of [receive_from], for any identifiers, each made while nothing else
      runs), for an identifier that had no FIFO at the start, the messages
      that arrived for it are, oldest first, those that have left its FIFO
      followed by those it still holds; the messages returned by the calls
      for this identifier are among those that left, in the order of
      arrival; and when no more arrived than the maximum (nothing was
      evicted) they are exactly those that left, so the calls returned a
      prefix of the arrivals.  What is under other keys plays no part. *)
Theorem receive_from_fifo_order (self : CANInterface) (can_id : Z) :
  (∀ (fuel : nat) (env : Env) (timeout : option number) (f : Q) (w : World)
     (m : Message) (q : list Message),
     (0 < f)%Q →
     (∀ t, timeout = Some t → before (clock env 1 - clock env 0) t = true) →
     message_fifos w !! queue_key self can_id = Some (m :: q) →
     ∃ t, receive_from fuel env self can_id timeout (Some (finite f)) w =
       Some (Return (Some m),
             set_fifos (<[queue_key self can_id := q]> (message_fifos w)) w, t)) ∧
  (∀ (fuel : nat) (env : Env) (timeout cf : option number) (w : World) r w' t,
     receive_from fuel env self can_id timeout cf w = Some (r, w', t) →
     ∃ j,
       (w' = slept env 0 j w ∧ ∀ m, r ≠ Return (Some m)) ∨
       ∃ m q,
         message_fifos (slept env 0 j w) !! queue_key self can_id = Some (m :: q) ∧
         r = Return (Some m) ∧
         w' = set_fifos
                (<[queue_key self can_id := q]> (message_fifos (slept env 0 j w)))
                (slept env 0 j w)) ∧
  (∀ (fuel : nat) (evs : list event) (w : World) (bus : Bus)
     (delivered : list (Z * Message)) (w' : World),
     buses w !! conn_key self = Some (Some bus) →
     message_fifos w !! queue_key self can_id = None →
     replay fuel self evs ([], w) = Some (delivered, w') →
     let pushed := with_id can_id (arrived evs) in
     let popped := delivered_to can_id delivered in
     ∃ older,
       pushed = older ++ fifo_of (queue_key self can_id) (message_fifos w') ∧
       popped `sublist_of` older ∧
       (Z.of_nat (length pushed) ≤ max_queue_size self → popped = older)).
Proof.
  split; [|split].
  - intros fuel env timeout f w m q. apply receive_from_pops_oldest.
  - intros fuel env timeout cf w r w' t. apply receive_from_takes_head.
  - intros fuel evs w bus delivered w' Hb Habsent Hrep.
    apply (replay_in_order fuel self can_id bus evs [] ([], w) (delivered, w') Hb);
      [|done].
    exists []. unfold fifo_of. simpl. by rewrite Habsent.
Qed.

Lemma receive_from_fifo_order_witness :
  let self := can0 10 in
  let end_ := default ([], can0_open) (replay 3 self sample_history ([], can0_open)) in
  let w := set_fifos {[ queue_key self 5 := [frame 5 [Byte.x01]; frame 5 [Byte.x02]] ]}
             can0_open in
  (∃ t, receive_from 0 (quiet ticking naps) self 5 None (Some (finite 100)) w =
     Some (Return (Some (frame 5 [Byte.x01])),
           set_fifos (<[queue_key self 5 := [frame 5 [Byte.x02]]]> (message_fifos w)) w,
           t)) ∧
  end_.1 = [(5, frame 5 [Byte.x01]); (5, frame 5 [Byte.x03])] ∧
  ∃ older,
    with_id 5 (arrived sample_history) =
      older ++ fifo_of (queue_key self 5) (message_fifos end_.2) ∧
    delivered_to 5 end_.1 `sublist_of` older ∧
    (Z.of_nat (length (with_id 5 (arrived sample_history))) ≤ max_queue_size self →
     delivered_to 5 end_.1 = older).
Proof.
  cbv zeta.
  destruct (receive_from_fifo_order (can0 10) 5) as (Hfirst & _ & Hhistory).
  split; [|split].
  - apply Hfirst; [reflexivity|discriminate|by vm_compute].
  - by vm_compute.
  - apply (Hhistory 3%nat sample_history can0_open can0_bus); by vm_compute.
Defined.

(** ** Opening *)

Section Opening.
Context {transport : Transport}.

Lemma open_when_open (self : CANInterface) (w : World) (bus : Bus) :
  buses w !! conn_key self = Some (Some bus) →
  open self w = (Return tt, (self, w)).
Proof. intros Hb. unfold open. by rewrite Hb. Qed.

Lemma open_when_closed (self : CANInterface) (w : World) (bus : Bus) :
  (∀ b, buses w !! conn_key self ≠ Some (Some b)) →
  Bus_ (channel self) (interface self) (bitrate self) = Return bus →
  open self w =
    (Return tt,
     (set_threader {| _running := true |} self,
      add_task (conn_key self)
        (set_buses (<[conn_key self := Some bus]> (buses w)) w))).
Proof.
  intros Hb Hbus. unfold open. rewrite Hbus.
  destruct (buses w !! conn_key self) as [[b|]|]; [by destruct (Hb b)|done|done].
Qed.

(** A second [open] right after one that returned changes nothing. *)
Lemma open_twice (self : CANInterface) (w : World) :
  (open self w).1 = Return tt →
  open (open self w).2.1 (open self w).2.2 = (Return tt, (open self w).2).
Proof.
  destruct (buses w !! conn_key self) as [[b|]|] eqn:Hb.
  - rewrite !(open_when_open self w b Hb). simpl. intros _.
    apply (open_when_open self w b Hb).
  - destruct (Bus_ (channel self) (interface self) (bitrate self)) as [bus|e] eqn:Hbus.
    + rewrite !(open_when_closed self w bus) by (done || congruence).
      simpl. intros _. apply open_when_open with bus. apply lookup_insert_eq.
    + unfold open. by rewrite Hb, Hbus.
  - destruct (Bus_ (channel self) (interface self) (bitrate self)) as [bus|e] eqn:Hbus.
    + rewrite !(open_when_closed self w bus) by (done || congruence).
      simpl. intros _. apply open_when_open with bus. apply lookup_insert_eq.
    + unfold open. by rewrite Hb, Hbus.
Qed.

(** [open] is its test followed, when the test finds no bus, by its
    writes. *)
Lemma open_split (self : CANInterface) (w : World) :
  open self w =
    if open_needed self w then open_writes self w else (Return tt, (self, w)).
Proof.
  unfold open, open_needed, open_writes.
  by destruct (buses w !! conn_key self) as [[b|]|].
Qed.

(** A call of [open] whose test found no bus stores the bus it opens and
    starts one task, whatever the registry holds by the time it writes. *)
Lemma open_writes_effect (self : CANInterface) (w : World) (bus : Bus) :
  Bus_ (channel self) (interface self) (bitrate self) = Return bus →
  (open_writes self w).1 = Return tt ∧
  buses (open_writes self w).2.2 = <[conn_key self := Some bus]> (buses w) ∧
  tasks (open_writes self w).2.2 = tasks w ++ [conn_key self] ∧
  message_fifos (open_writes self w).2.2 = message_fifos w ∧
  _running (_threader (open_writes self w).2.1) = true.
Proof. intros Hbus. unfold open_writes. by rewrite Hbus. Qed.

End Opening.

(** C9 (the code departs from it).  Two instances on the same connection
    key call [open()] on a fresh process, and both make the test of line 71
    before either runs lines 72-73, which no lock forbids.  Both tests find
    no bus; both calls then open a bus, store it and start a receiver loop:
    the second bus replaces the first in the registry, and two loops run
    for the one key. *)
Theorem interleaved_opens_start_two_loops :
  let first := opened (can0 10) in
  let second := (open_writes (transport := sample_transport) can0_slow first.2).2 in
  conn_key can0_slow = conn_key (can0 10) ∧
  open_needed (can0 10) empty_world = true ∧
  open_needed can0_slow empty_world = true ∧
  first = (open_writes (transport := sample_transport) (can0 10) empty_world).2 ∧
  tasks second.2 = [conn_key (can0 10); conn_key (can0 10)] ∧
  ¬ NoDup (tasks second.2) ∧
  buses first.2 !! conn_key (can0 10) = Some (Some can0_bus) ∧
  buses second.2 !! conn_key (can0 10) =
    Some (Some {| bus_channel := "can0"; bus_interface := "socketcan";
                  bus_bitrate := 125000; _is_shutdown := false |}) ∧
  _running (_threader first.1) = true ∧
  _running (_threader second.1) = true.
Proof.
  cbv zeta. repeat split; try by vm_compute.
  assert (tasks (open_writes (transport := sample_transport) can0_slow
                   (opened (can0 10)).2).2.2
          = [conn_key (can0 10); conn_key (can0 10)]) as -> by by vm_compute.
  intros Hnd. apply NoDup_cons in Hnd as [Hin _].
  apply Hin, list_elem_of_here.
Qed.

(** * Further properties *)

(** ** The receiver loop: isolation, failures, log *)

Lemma loop_passes_null (self : CANInterface)
    (rs : list (outcome (option Message))) (w : World) :
  buses w !! conn_key self = Some None →
  _loop_passes self rs w = (Return tt, w).
Proof.
  intros Hb. induction rs as [|r rs IH]; [done|].
  simpl. unfold _loop_body. by rewrite Hb.
Qed.

Lemma loop_body_registry (self : CANInterface) (r : outcome (option Message))
    (w : World) :
  buses (_loop_body self r w).2 = buses w ∧ tasks (_loop_body self r w).2 = tasks w.
Proof.
  unfold _loop_body.
  destruct (buses w !! conn_key self) as [[bus|]|]; [|done|done].
  destruct r as [[msg|]|e]; [|done|done]. simpl.
  by destruct (emit_shared self (debug_received msg) w) as (-> & -> & _).
Qed.

Lemma loop_passes_other (self : CANInterface)
    (rs : list (outcome (option Message))) : ∀ (w : World) (k : QueueKey),
  (∀ m, m ∈ received rs → k ≠ queue_key self (arbitration_id m)) →
  message_fifos (_loop_passes self rs w).2 !! k = message_fifos w !! k.
Proof.
  induction rs as [|r rs IH]; intros w k Hk; [done|].
  destruct (buses w !! conn_key self) as [[bus|]|] eqn:Hb.
  - simpl. unfold _loop_body. rewrite Hb.
    destruct r as [[msg|]|e]; [| |done].
    + rewrite IH by (intros m Hm; apply Hk; simpl; by apply list_elem_of_further).
      simpl. rewrite loop_insert_other by (apply Hk; simpl; apply list_elem_of_here).
      by destruct (emit_shared self (debug_received msg) w) as (_ & _ & ->).
    + apply IH. intros m Hm. by apply Hk.
  - by rewrite loop_passes_null.
  - simpl. unfold _loop_body. by rewrite Hb.
Qed.

(** X1.  A run of the receiver loop of an instance changes no FIFO other
    than those of its own connection under the identifiers it received:
    every other key of the store, of this or of another connection, keeps
    its FIFO. *)
Theorem loop_touches_only_received_keys (self : CANInterface)
    (rs : list (outcome (option Message))) (w : World) (k : QueueKey) :
  (∀ m, m ∈ received rs → k ≠ queue_key self (arbitration_id m)) →
  message_fifos (_loop self rs w).2 !! k = message_fifos w !! k.
Proof.
  intros Hk. unfold _loop. destruct (_running (_threader self)); [|done].
  by apply loop_passes_other.
Qed.

(** X2.  Without a handle the loop receives nothing.  Started for a
    connection key that the registry does not hold, it raises [KeyError] at
    its first pass; while the entry is [None] it spins without calling
    [recv].  In both cases the shared state is left as it was. *)
Theorem loop_without_handle (self : CANInterface)
    (rs : list (outcome (option Message))) (w : World) :
  (buses w !! conn_key self = None → rs ≠ [] →
   _running (_threader self) = true →
   _loop self rs w = (Raise KeyError, w)) ∧
  (buses w !! conn_key self = Some None → _loop self rs w = (Return tt, w)).
Proof.
  split.
  - intros Hb Hrs Hrun. unfold _loop. rewrite Hrun.
    destruct rs as [|r rs]; [done|]. simpl. unfold _loop_body. by rewrite Hb.
  - intros Hb. unfold _loop. destruct (_running (_threader self)); [|done].
    by apply loop_passes_null.
Qed.

Lemma loop_passes_app (self : CANInterface)
    (rs1 rs2 : list (outcome (option Message))) : ∀ w : World,
  (_loop_passes self rs1 w).1 = Return tt →
  _loop_passes self (rs1 ++ rs2) w = _loop_passes self rs2 (_loop_passes self rs1 w).2.
Proof.
  induction rs1 as [|r rs1 IH]; intros w Hok; [done|].
  simpl in *. destruct (_loop_body self r w) as [[[]|e] w1]; [|done].
  by apply IH.
Qed.

Lemma loop_passes_registry (self : CANInterface)
    (rs : list (outcome (option Message))) : ∀ w : World,
  buses (_loop_passes self rs w).2 = buses w ∧
  tasks (_loop_passes self rs w).2 = tasks w.
Proof.
  induction rs as [|r rs IH]; intros w; [done|]. simpl.
  pose proof (loop_body_registry self r w) as [Eb Et].
  destruct (_loop_body self r w) as [[[]|e] w1]; simpl in *; [|done].
  destruct (IH w1) as [-> ->]. done.
Qed.

(** X3.  When [bus.recv] raises, the exception ends the loop: the messages
    received in the passes before it stay filed, and nothing that would have
    come after is received. *)
Theorem loop_stops_at_recv_failure (self : CANInterface) (bus : Bus)
    (rs1 rs2 : list (outcome (option Message))) (e : exn) (w : World) :
  _running (_threader self) = true →
  buses w !! conn_key self = Some (Some bus) →
  (_loop self rs1 w).1 = Return tt →
  _loop self (rs1 ++ Raise e :: rs2) w = (Raise e, (_loop self rs1 w).2).
Proof.
  unfold _loop. intros -> Hb Hok.
  rewrite loop_passes_app by done. simpl. unfold _loop_body.
  destruct (loop_passes_registry self rs1 w) as [-> _]. by rewrite Hb.
Qed.

Lemma loop_passes_log (self : CANInterface) (bus : Bus)
    (rs : list (outcome (option Message))) : ∀ w : World,
  buses w !! conn_key self = Some (Some bus) →
  log (_loop_passes self rs w).2 =
    log w ++ (if logger self then debug_received <$> received rs else []).
Proof.
  induction rs as [|[[msg|]|e] rs IH]; intros w Hb; simpl.
  - destruct (logger self); by rewrite app_nil_r.
  - unfold _loop_body. rewrite Hb. simpl.
    rewrite IH by (simpl; by destruct (emit_shared self (debug_received msg) w) as (-> & _)).
    simpl. unfold emit. destruct (logger self); simpl; [|done].
    by rewrite <- app_assoc.
  - unfold _loop_body. rewrite Hb. by apply IH.
  - unfold _loop_body. rewrite Hb. simpl. destruct (logger self); by rewrite app_nil_r.
Qed.

(** X4.  A run of the loop on an open connection writes to the log one debug
    record for each message received, in the order of receipt, when the
    instance has a logger, and nothing without one; it never changes the
    registry nor starts a task. *)
Theorem loop_logs_received (self : CANInterface) (bus : Bus)
    (rs : list (outcome (option Message))) (w : World) :
  _running (_threader self) = true →
  buses w !! conn_key self = Some (Some bus) →
  log (_loop self rs w).2 =
    log w ++ (if logger self then debug_received <$> received rs else []) ∧
  buses (_loop self rs w).2 = buses w ∧
  tasks (_loop self rs w).2 = tasks w.
Proof.
  intros Hrun Hb. unfold _loop. rewrite Hrun.
  split; [by apply (loop_passes_log self bus)|apply loop_passes_registry].
Qed.

(** ** Receiving: waiting, deadline, arrival *)

Lemma rounds_S (n : nat) (pr : list action) (f : number) :
  rounds (S n) pr f = Poll :: pr ++ Sleep (period f) :: rounds n pr f.
Proof. unfold rounds. simpl. by rewrite <- app_assoc. Qed.

Lemma wait_until_times_out (clk : nat -> Q) (slp : number -> outcome unit)
    (self : CANInterface) (can_id : Z) (f : number) (start : Q) (timeout : number)
    (w : World) (j : nat) : ∀ (fuel n0 : nat),
  pop_front (queue_key self can_id) (message_fifos w) = None →
  (∀ i, (i < j)%nat → before (clk (S (n0 + i)) - start) timeout = true) →
  before (clk (S (n0 + j)) - start) timeout = false →
  ((0 < j)%nat → slp (period f) = Return tt) →
  (j ≤ fuel)%nat →
  wait_until fuel (quiet clk slp) self can_id f start timeout n0 w =
    Some (Return None, w,
          rounds j (printed (queue_key self can_id) (message_fifos w)) f).
Proof.
  induction j as [|j IH]; intros fuel n0 Hp Hbefore Hafter Hslp Hfuel.
  - rewrite Nat.add_0_r in Hafter.
    destruct fuel; simpl; by rewrite Hafter.
  - destruct fuel as [|fuel]; [lia|]. simpl.
    pose proof (Hbefore 0%nat ltac:(lia)) as H0. rewrite Nat.add_0_r in H0.
    rewrite H0, Hp, Hslp by lia.
    rewrite (IH fuel (S n0)), rounds_S; [done|done| | | |lia].
    + intros i Hi. specialize (Hbefore (S i) ltac:(lia)).
      by rewrite Nat.add_succ_r in Hbefore.
    + by rewrite Nat.add_succ_r in Hafter.
    + intros _. apply Hslp. lia.
Qed.

(** X5.  A timed [receive_from] on a queue that is absent or empty, while no
    other thread runs: if the tests of the loop pass [n] times (the clock is
    short of the deadline) and fail at the next, and [time.sleep] returns
    for the period [1 / check_frequency] whenever it is called, the call
    returns [None] after exactly [n] polls, each followed by a sleep of one
    period, and leaves the shared state as it was. *)
Theorem receive_from_times_out (fuel : nat) (clk : nat -> Q)
    (slp : number -> outcome unit) (self : CANInterface) (can_id : Z)
    (timeout f : number) (w : World) (n : nat) :
  is_zero f || le_zero f = false →
  pop_front (queue_key self can_id) (message_fifos w) = None →
  (∀ i, (i < n)%nat → before (clk (S i) - clk 0%nat) timeout = true) →
  before (clk (S n) - clk 0%nat) timeout = false →
  ((0 < n)%nat → slp (period f) = Return tt) →
  (n ≤ fuel)%nat →
  receive_from fuel (quiet clk slp) self can_id (Some timeout) (Some f) w =
    Some (Return None, w,
          rounds n (printed (queue_key self can_id) (message_fifos w)) f).
Proof.
  intros Hf Hp Hbefore Hafter Hslp Hfuel. unfold receive_from. rewrite Hf.
  by apply wait_until_times_out.
Qed.

Lemma wait_forever_waits (env : Env) (self : CANInterface) (can_id : Z) (f : number)
    (j : nat) : ∀ (fuel n0 : nat) (w : World) (m : Message) (q : list Message),
  (j ≤ fuel)%nat →
  ((0 < j)%nat → sleep env (period f) = Return tt) →
  (∀ i, (i < j)%nat →
     pop_front (queue_key self can_id) (message_fifos (slept env n0 i w)) = None) →
  message_fifos (slept env n0 j w) !! queue_key self can_id = Some (m :: q) →
  wait_forever fuel env self can_id f n0 w =
    Some (Return (Some m),
          set_fifos (<[queue_key self can_id := q]> (message_fifos (slept env n0 j w)))
            (slept env n0 j w),
          rounds j [] f ++ [Poll]).
Proof.
  induction j as [|j IH]; intros fuel n0 w m q Hfuel Hslp Hbefore Hq.
  - simpl in Hq. destruct fuel; simpl; unfold pop_front; by rewrite Hq.
  - destruct fuel as [|fuel]; [lia|]. rewrite rounds_S. cbn [wait_forever].
    pose proof (Hbefore 0%nat ltac:(lia)) as H0. simpl in H0.
    rewrite H0, Hslp by lia.
    rewrite (IH fuel (S n0) (others env n0 w) m q); [done|lia| | |done].
    + intros _. apply Hslp. lia.
    + intros i Hi. apply (Hbefore (S i)). lia.
Qed.

(** X6.  An untimed [receive_from] waits for a message: if its queue is
    absent or empty at the first [j] polls, [time.sleep] returns for the
    period whenever it is called, and the other threads have put a message
    at the head of the queue by the next poll, the call returns that
    message, removes it, and has slept [j] times [1 / check_frequency]. *)
Theorem receive_from_waits_for_message (fuel : nat) (env : Env)
    (self : CANInterface) (can_id : Z) (f : number) (w : World) (j : nat)
    (m : Message) (q : list Message) :
  is_zero f || le_zero f = false →
  (j ≤ fuel)%nat →
  ((0 < j)%nat → sleep env (period f) = Return tt) →
  (∀ i, (i < j)%nat →
     pop_front (queue_key self can_id) (message_fifos (slept env 0 i w)) = None) →
  message_fifos (slept env 0 j w) !! queue_key self can_id = Some (m :: q) →
  receive_from fuel env self can_id None (Some f) w =
    Some (Return (Some m),
          set_fifos (<[queue_key self can_id := q]> (message_fifos (slept env 0 j w)))
            (slept env 0 j w),
          rounds j [] f ++ [Poll]).
Proof.
  intros Hf Hfuel Hslp Hbefore Hq. unfold receive_from. rewrite Hf.
  by apply wait_forever_waits.
Qed.

Lemma wait_forever_never_prints (env : Env) (self : CANInterface) (can_id : Z)
    (f : number) (fuel : nat) : ∀ (n : nat) (w : World) r w' t,
  wait_forever fuel env self can_id f n w = Some (r, w', t) →
  r ≠ Return None ∧ ∀ p, Print p ∉ t.
Proof.
  induction fuel as [|fuel IH]; intros n w r w' t; simpl.
  - destruct (pop_front _ _) as [[m fifos]|].
    + intros [= <- <- <-]. split; [done|]. intros p [=]%list_elem_of_singleton.
    + destruct (sleep env (period f)) as [[]|e]; [done|].
      intros [= <- <- <-]. split; [done|]. intros p Hp.
      apply elem_of_cons in Hp as [[=]|Hp].
      by apply list_elem_of_singleton in Hp.
  - destruct (pop_front _ _) as [[m fifos]|].
    + intros [= <- <- <-]. split; [done|]. intros p [=]%list_elem_of_singleton.
    + destruct (sleep env (period f)) as [[]|e].
      * destruct (wait_forever _ _ _ _ _ _ _) as [[[r1 w1] t1]|] eqn:Hw; [|done].
        intros [= <- <- <-]. destruct (IH _ _ _ _ _ Hw) as [Hr Ht].
        split; [done|]. intros p Hp.
        apply elem_of_cons in Hp as [[=]|Hp].
        apply elem_of_cons in Hp as [[=]|Hp].
        by apply (Ht p).
      * intros [= <- <- <-]. split; [done|]. intros p Hp.
        apply elem_of_cons in Hp as [[=]|Hp].
        by apply list_elem_of_singleton in Hp.
Qed.

Lemma wait_forever_quiet_empty (clk : nat -> Q) (slp : number -> outcome unit)
    (self : CANInterface) (can_id : Z) (f : number) (w : World) (fuel : nat) :
  ∀ n : nat,
  pop_front (queue_key self can_id) (message_fifos w) = None →
  slp (period f) = Return tt →
  wait_forever fuel (quiet clk slp) self can_id f n w = None.
Proof.
  induction fuel as [|fuel IH]; intros n Hp Hslp; simpl; rewrite Hp, Hslp; [done|].
  by rewrite IH.
Qed.

(** X7.  An untimed [receive_from] never returns [None] and never prints: a
    call that ends has been refused for its frequency, or hands over a
    message, or lets through an exception of [time.sleep].  On a queue that
    is absent or empty, while no other thread runs: if [time.sleep] raises
    for the period, the call raises that exception after a single poll and
    leaves the state as it was; if it returns, the call is still waiting
    after any number of polls. *)
Theorem receive_from_untimed_never_empty (self : CANInterface) (can_id : Z) :
  (∀ (fuel : nat) (env : Env) (cf : option number) (w : World) r w' t,
     receive_from fuel env self can_id None cf w = Some (r, w', t) →
     r ≠ Return None ∧ ∀ p, Print p ∉ t) ∧
  (∀ (fuel : nat) (env : Env) (f : number) (w : World) (e : exn),
     is_zero f || le_zero f = false →
     pop_front (queue_key self can_id) (message_fifos w) = None →
     sleep env (period f) = Raise e →
     receive_from fuel env self can_id None (Some f) w =
       Some (Raise e, w, [Poll; Sleep (period f)])) ∧
  (∀ (fuel : nat) (clk : nat -> Q) (slp : number -> outcome unit) (f : number)
     (w : World),
     is_zero f || le_zero f = false →
     pop_front (queue_key self can_id) (message_fifos w) = None →
     slp (period f) = Return tt →
     receive_from fuel (quiet clk slp) self can_id None (Some f) w = None).
Proof.
  split; [|split].
  - intros fuel env cf w r w' t. unfold receive_from.
    destruct cf as [f|].
    + destruct (_ || _).
      * intros [= <- <- <-]. split; [done|]. intros p Hp. by apply elem_of_nil in Hp.
      * apply wait_forever_never_prints.
    + intros [= <- <- <-]. split; [done|]. intros p Hp. by apply elem_of_nil in Hp.
  - intros fuel env f w e Hf Hp Hslp. unfold receive_from. rewrite Hf.
    destruct fuel; simpl; by rewrite Hp, Hslp.
  - intros fuel clk slp f w Hf Hp Hslp. unfold receive_from. rewrite Hf.
    by apply wait_forever_quiet_empty.
Qed.

(** ** Commands of the subclass, closing, clearing *)

(** X8.  A frame filed by the receiver loop under an identifier whose queue
    was absent or empty comes back from [receive_cmd_from] as its identifier
    and its payload, unchanged, and the queue is left present and empty; no
    other key is touched.  (The maximum queue size is at least 1.) *)
Theorem receive_cmd_from_round_trip (fuel : nat) (env : Env)
    (self : CANInterface) (w : World) (bus : Bus) (msg : Message)
    (timeout : option number) (f : Q) :
  buses w !! conn_key self = Some (Some bus) →
  1 ≤ max_queue_size self →
  fifo_of (queue_key self (arbitration_id msg)) (message_fifos w) = [] →
  (0 < f)%Q →
  (∀ t, timeout = Some t → before (clock env 1 - clock env 0) t = true) →
  ∃ t w',
    receive_cmd_from fuel env self (arbitration_id msg) timeout (Some (finite f))
      (_loop_body self (Return (Some msg)) w).2 =
      Some (Return (Some (arbitration_id msg, data msg)), w', t) ∧
    message_fifos w' !! queue_key self (arbitration_id msg) = Some [] ∧
    ∀ k, k ≠ queue_key self (arbitration_id msg) →
      message_fifos w' !! k = message_fifos w !! k.
Proof.
  intros Hb Hmax Hempty Hf Ht.
  set (w1 := (_loop_body self (Return (Some msg)) w).2).
  assert (message_fifos w1 = _loop_insert self msg (message_fifos w)) as Hw1.
  { unfold w1, _loop_body. rewrite Hb. simpl.
    by destruct (emit_shared self (debug_received msg) w) as (_ & _ & ->). }
  assert (message_fifos w1 !! queue_key self (arbitration_id msg) = Some [msg]) as Hq.
  { rewrite Hw1, loop_insert_same. unfold fifo_of in Hempty.
    destruct (message_fifos w !! queue_key self (arbitration_id msg)) as [q|];
      [|done].
    simpl in Hempty. subst q. simpl.
    change (Z.of_nat 1) with 1.
    destruct (Z.gtb_spec 1 (max_queue_size self)); [lia|done]. }
  destruct (receive_from_pops_oldest fuel env self (arbitration_id msg) timeout f
              w1 msg [] Hf Ht Hq) as [t Hr].
  eexists t, _. unfold receive_cmd_from. rewrite Hr. split; [done|]. simpl.
  split; [by rewrite lookup_insert_eq|].
  intros k Hk. by rewrite lookup_insert_ne, Hw1, loop_insert_other.
Qed.

(** X9.  [clear_fifo] called without identifiers ([None] or an empty
    sequence) removes every queue of the store, those of the other
    connections too, and leaves the registry alone.  After it an untimed
    [receive_from] of any instance, for any identifier, finds nothing: while
    no other thread runs and [time.sleep] returns for its period, it keeps
    waiting. *)
Theorem clear_fifo_wipes_every_connection (self self' : CANInterface)
    (ids : option (list Z)) (w : World) (can_id : Z) (fuel : nat)
    (clk : nat -> Q) (slp : number -> outcome unit) (f : number) :
  ids = None ∨ ids = Some [] →
  is_zero f || le_zero f = false →
  slp (period f) = Return tt →
  (clear_fifo self ids w).1 = Return tt ∧
  (∀ k : QueueKey, message_fifos (clear_fifo self ids w).2 !! k = None) ∧
  buses (clear_fifo self ids w).2 = buses w ∧
  receive_from fuel (quiet clk slp) self' can_id None (Some f)
    (clear_fifo self ids w).2 = None.
Proof.
  intros Hids Hf Hslp.
  assert (clear_fifo self ids w = (Return tt, set_fifos ∅ w)) as ->
    by (by destruct Hids as [-> | ->]).
  split; [done|]. split; [intros k; apply lookup_empty|]. split; [done|].
  unfold receive_from. rewrite Hf.
  apply wait_forever_quiet_empty; [|done].
  unfold pop_front. simpl. by rewrite lookup_empty.
Qed.

Lemma close_shared (self : CANInterface) (w : World) :
  message_fifos (close self w).2.2 = message_fifos w ∧
  tasks (close self w).2.2 = tasks w.
Proof.
  unfold close. by destruct (buses w !! conn_key self) as [[bus|]|].
Qed.

(** X10.  [close] leaves the queues as they are, whether it returns or
    raises: a message that was waiting at the head of a queue is still
    returned, first, by a [receive_from] made after the close. *)
Theorem close_keeps_queued_messages (self self' : CANInterface) (w : World)
    (can_id : Z) (fuel : nat) (env : Env) (timeout : option number) (f : Q)
    (m : Message) (q : list Message) :
  (0 < f)%Q →
  (∀ t, timeout = Some t → before (clock env 1 - clock env 0) t = true) →
  message_fifos w !! queue_key self' can_id = Some (m :: q) →
  ∃ t, receive_from fuel env self' can_id timeout (Some (finite f))
         (close self w).2.2 =
    Some (Return (Some m),
          set_fifos (<[queue_key self' can_id := q]> (message_fifos w))
            (close self w).2.2, t).
Proof.
  intros Hf Ht Hq. destruct (close_shared self w) as [Hfifos _].
  rewrite <- Hfifos in Hq.
  destruct (receive_from_pops_oldest fuel env self' can_id timeout f _ m q Hf Ht Hq)
    as [t Hr].
  exists t. by rewrite Hr, Hfifos.
Qed.

Section Commands.
Context {transport : Transport}.

(** X11.  An [open] that returns leaves a handle under the connection key,
    so that a [send] made next returns a boolean and does not raise; an
    [open] that raises (the transport could not open the bus) has changed
    neither the instance nor the shared state. *)
Theorem open_then_send (self : CANInterface) (w : World) (msg : Message)
    (timeout : option Q) :
  ((open self w).1 = Return tt →
   ∃ b, (send (open self w).2.1 msg timeout (open self w).2.2).1 = Return b) ∧
  (∀ e, (open self w).1 = Raise e → (open self w).2 = (self, w)).
Proof.
  unfold open.
  destruct (buses w !! conn_key self) as [[bus|]|] eqn:Hb.
  - split; [|done]. intros _. simpl. unfold send. rewrite Hb.
    destruct (bus_send bus msg timeout); eauto.
  - destruct (Bus_ _ _ _) as [bus|e]; (split; [|done]); [|done].
    intros _. simpl. unfold send.
    change (conn_key (set_threader _ self)) with (conn_key self).
    simpl. rewrite lookup_insert_eq.
    destruct (bus_send bus msg timeout); eauto.
  - destruct (Bus_ _ _ _) as [bus|e]; (split; [|done]); [|done].
    intros _. simpl. unfold send.
    change (conn_key (set_threader _ self)) with (conn_key self).
    simpl. rewrite lookup_insert_eq.
    destruct (bus_send bus msg timeout); eauto.
Qed.

(** X12.  [send_cmd] returns [True] exactly when the registry holds a handle
    for the connection and the transport accepts the frame built from the
    arguments: the identifier and payload given, extended identifier, not
    FD.  Whatever its outcome it changes neither the registry, nor the
    queues, nor the tasks. *)
Theorem send_cmd_true_iff (self : CANInterface) (can_id : Z)
    (payload : list Byte.byte) (timeout : option Q) (w : World) :
  ((send_cmd self can_id payload timeout w).1 = Return true ↔
   ∃ bus, buses w !! conn_key self = Some (Some bus) ∧
          bus_send bus {| arbitration_id := can_id; data := payload;
                          is_extended_id := true; is_fd := false |} timeout
            = Return tt) ∧
  buses (send_cmd self can_id payload timeout w).2 = buses w ∧
  message_fifos (send_cmd self can_id payload timeout w).2 = message_fifos w ∧
  tasks (send_cmd self can_id payload timeout w).2 = tasks w.
Proof.
  unfold send_cmd, send.
  destruct (buses w !! conn_key self) as [[bus|]|] eqn:Hb.
  - destruct (bus_send bus _ timeout) as [[]|e] eqn:Hs; simpl.
    + split; [split; [eauto|done]|].
      by destruct (emit_shared self (debug_sent
        {| arbitration_id := can_id; data := payload;
           is_extended_id := true; is_fd := false |}) w) as (-> & -> & ->).
    + split; [split; [done|intros (b & [= <-] & Hs'); congruence]|].
      by destruct (emit_shared self (info_timeout timeout
        {| arbitration_id := can_id; data := payload;
           is_extended_id := true; is_fd := false |}) w) as (-> & -> & ->).
  - split; [|done]. split; [done|]. by intros (b & [=] & _).
  - split; [|done]. split; [done|]. by intros (b & [=] & _).
Qed.

End Commands.

(** ** Invariants of runs *)

Lemma clear_each_lookup (self : CANInterface) (ids : list Z) :
  ∀ (f f' : Store) (r : outcome unit),
  clear_each self ids f = (r, f') →
  ∀ k, f' !! k = f !! k ∨ (is_Some (f !! k) ∧ f' !! k = Some []).
Proof.
  induction ids as [|can_id ids IH]; intros f f' r; simpl.
  - intros [= <- <-] k. by left.
  - destruct (f !! (inl can_id : QueueKey)); [|apply IH].
    destruct (f !! queue_key self can_id) as [q0|] eqn:Hq;
      [|intros [= <- <-] k; by left].
    intros Hc k. destruct (IH _ _ _ Hc k) as [E|[Hs E]].
    + destruct (decide (k = queue_key self can_id)) as [->|Hne].
      * rewrite lookup_insert_eq in E. right. by rewrite Hq.
      * rewrite lookup_insert_ne in E by done. by left.
    + right. split; [|done].
      destruct (decide (k = queue_key self can_id)) as [->|Hne].
      * by rewrite Hq.
      * by rewrite lookup_insert_ne in Hs.
Qed.

Section Runs.
Context {transport : Transport}.

Lemma send_shared (self : CANInterface) (msg : Message) (timeout : option Q)
    (w : World) :
  buses (send self msg timeout w).2 = buses w ∧
  tasks (send self msg timeout w).2 = tasks w ∧
  message_fifos (send self msg timeout w).2 = message_fifos w.
Proof.
  unfold send. destruct (buses w !! conn_key self) as [[bus|]|]; [|done|done].
  destruct (bus_send bus msg timeout); simpl; apply emit_shared.
Qed.

Lemma send_change (self : CANInterface) (msg : Message) (timeout : option Q)
    (w : World) (b l : bool) (p : option CANInterface) :
  world_change b l p w (send self msg timeout w).2.
Proof.
  destruct (send_shared self msg timeout w) as (Eb & Et & Ef).
  apply wc_store; [done|done|]. rewrite Ef. constructor.
Qed.

Lemma clear_ids_change (self : CANInterface) (can_id : Z) (ids : list Z)
    (w : World) (b l : bool) (p : option CANInterface) :
  world_change b l p w (clear_fifo self (Some (can_id :: ids)) w).2.
Proof.
  unfold clear_fifo.
  destruct (clear_each self (can_id :: ids) (message_fifos w)) as [r f'] eqn:Hc.
  apply wc_store; [done|done|]. simpl. by eapply fc_clear.
Qed.

(** Each step changes the shared state in one of five ways. *)
Lemma after_step_change (s : step) (w : World) :
  world_change (wipes s) (late s) (passing s) w (after_step s w).
Proof.
  destruct s as [[self|self|self|self msg timeout|self ids|self r]
                |self can_id timeout cf clk slp fuel
                |self can_id payload timeout|self mot_id|self]; simpl.
  - unfold open.
    destruct (buses w !! conn_key self) as [[b|]|] eqn:Hb;
      [apply wc_store; try done; constructor| |];
      (destruct (Bus_ _ _ _) as [bus|e];
       [|apply wc_store; try done; constructor]); simpl;
      (apply (wc_open _ _ _ _ _ (conn_key self) bus); [|done|done|done]);
      intros x; congruence.
  - unfold open_writes.
    destruct (Bus_ _ _ _) as [bus|e]; [|apply wc_store; try done; constructor].
    simpl. by apply (wc_write _ _ _ _ _ (conn_key self) bus).
  - unfold close.
    destruct (buses w !! conn_key self) as [[b|]|] eqn:Hb;
      [|apply wc_store; try done; constructor..].
    by apply (wc_close _ _ _ _ _ (conn_key self) b).
  - apply send_change.
  - destruct ids as [[|can_id ids]|].
    + by apply wc_wipe.
    + apply clear_ids_change.
    + by apply wc_wipe.
  - unfold _loop_body.
    destruct (buses w !! conn_key self) as [[b|]|];
      [|apply wc_store; try done; constructor..].
    destruct r as [[msg|]|e]; [|apply wc_store; try done; constructor..].
    simpl. destruct (emit_shared self (debug_received msg) w) as (Eb & Et & Ef).
    apply wc_store; [done|done|]. simpl. rewrite Ef. by apply fc_insert.
  - destruct (receive_from _ _ _ _ _ _ _) as [[[r w'] t]|] eqn:Hr;
      [|apply wc_store; try done; constructor].
    apply receive_from_quiet in Hr as [[-> _]|(m & fifos & Hp & _ & ->)];
      [apply wc_store; try done; constructor|].
    apply pop_front_spec in Hp as (q & Hq & ->).
    apply wc_store; [done|done|]. simpl. by eapply fc_pop.
  - apply send_change.
  - apply clear_ids_change.
  - by apply wc_wipe.
Qed.

Lemma run_steps_snoc (ss : list step) (s : step) (w : World) :
  run_steps (ss ++ [s]) w = after_step s (run_steps ss w).
Proof. unfold run_steps. by rewrite foldl_app. Qed.

Lemma tuple_keys_change (b l : bool) (p : option CANInterface) (w w' : World) :
  world_change b l p w w' →
  tuple_keys (message_fifos w) → tuple_keys (message_fifos w').
Proof.
  intros [_ _ Hf|_ _ _ ->|k bus _ _ _ ->|k bus _ _ _ ->|k bus _ _ _ ->] Ht;
    try done.
  destruct Hf as [|self msg _|k m q Hk|self ids r f' Hc].
  - done.
  - by apply loop_insert_tuple_keys.
  - intros can_id. rewrite lookup_insert_ne; [apply Ht|].
    intros ->. by rewrite Ht in Hk.
  - rewrite clear_each_tuple_keys in Hc by done. by injection Hc as _ <-.
Qed.

Lemma run_steps_tuple_keys (ss : list step) :
  tuple_keys (message_fifos (run_steps ss empty_world)).
Proof.
  induction ss as [|s ss IH] using rev_ind; [intros can_id; apply lookup_empty|].
  rewrite run_steps_snoc. eapply tuple_keys_change; [apply after_step_change|done].
Qed.

(** X13.  In every state reached from a fresh process by calls of the
    interface, interrupted or not, loop passes and receives, [clear_fifo]
    with a non-empty sequence of identifiers, and [clear_queues_of] with it,
    return normally and change nothing at all: the keys of the store are all
    tuples, which the membership test on the bare identifier never finds. *)
Theorem clear_by_identifier_never_clears (ss : list step) (self : CANInterface) :
  let w := run_steps ss empty_world in
  (∀ ids : list Z, ids ≠ [] → clear_fifo self (Some ids) w = (Return tt, w)) ∧
  (∀ mot_id : Z, clear_queues_of self mot_id w = (Return tt, w)).
Proof.
  cbv zeta. split.
  - intros ids Hne. apply clear_fifo_ids_no_effect; [|done].
    apply run_steps_tuple_keys.
  - intros mot_id. apply clear_queues_of_no_effect, run_steps_tuple_keys.
Qed.

Lemma no_null_change (b l : bool) (p : option CANInterface) (w w' : World) :
  world_change b l p w w' →
  (∀ k, buses w !! k ≠ Some None) → (∀ k, buses w' !! k ≠ Some None).
Proof.
  intros [-> _ _| _ -> _ _|k bus _ -> _ _|k bus _ -> _ _|k bus _ -> _ _] Hn k';
    try done;
    (destruct (decide (k' = k)) as [->|Hne];
     [by rewrite lookup_insert_eq|by rewrite lookup_insert_ne]).
Qed.

Lemma run_steps_no_null (ss : list step) (k : ConnKey) :
  buses (run_steps ss empty_world) !! k ≠ Some None.
Proof.
  revert k. induction ss as [|s ss IH] using rev_ind;
    [intros k; simpl; by rewrite lookup_empty|].
  rewrite run_steps_snoc. eapply no_null_change; [apply after_step_change|done].
Qed.

(** X14.  No call of the interface ever stores [None] in the registry:
    starting from a fresh process, a connection key is either absent or
    bound to a bus object.  So [send] never raises [ValueError] there: it
    raises [KeyError] when the key was never opened and returns a boolean
    otherwise. *)
Theorem registry_never_holds_none (ss : list step) (self : CANInterface)
    (msg : Message) (timeout : option Q) :
  let w := run_steps ss empty_world in
  (∀ k, buses w !! k ≠ Some None) ∧
  (send self msg timeout w).1 ≠ Raise ValueError.
Proof.
  cbv zeta. split; [apply run_steps_no_null|].
  unfold send. pose proof (run_steps_no_null ss (conn_key self)) as Hn.
  destruct (buses (run_steps ss empty_world) !! conn_key self) as [[bus|]|];
    [|done|done].
  by destruct (bus_send bus msg timeout).
Qed.

Lemma handle_kept_change (b : bool) (p : option CANInterface) (w w' : World)
    (k : ConnKey) (bus : Bus) :
  world_change b false p w w' →
  buses w !! k = Some (Some bus) ∨ buses w !! k = Some (Some (shutdown bus)) →
  buses w' !! k = Some (Some bus) ∨ buses w' !! k = Some (Some (shutdown bus)).
Proof.
  intros [-> _ _| _ -> _ _|k' bus' Hfree -> _ _|k' bus' ? _ _ _|k' bus' Hb -> _ _] Hk;
    try done.
  - destruct (decide (k = k')) as [->|Hne]; [|by rewrite lookup_insert_ne].
    destruct Hk as [Hk|Hk]; by destruct (Hfree _ Hk).
  - destruct (decide (k = k')) as [->|Hne]; [|by rewrite lookup_insert_ne].
    rewrite lookup_insert_eq. right.
    destruct Hk as [Hk|Hk]; rewrite Hk in Hb; by injection Hb as <-.
Qed.

Lemma shut_down_kept_change (b : bool) (p : option CANInterface) (w w' : World)
    (k : ConnKey) (bus : Bus) :
  world_change b false p w w' →
  buses w !! k = Some (Some (shutdown bus)) →
  buses w' !! k = Some (Some (shutdown bus)).
Proof.
  intros Hc Hk.
  destruct (handle_kept_change b p w w' k (shutdown bus) Hc (or_introl Hk)) as [H|H];
    by rewrite H.
Qed.

(** X15.  As long as no [open] is interrupted between its test and its
    writes (every [open] of the run is one step), the bus object stored for
    a connection key is the only one the key ever has: after any further
    steps the registry holds the same bus, open or shut down, and a bus that
    was shut down stays so.  [open] after [close] therefore reopens
    nothing. *)
Theorem first_bus_is_kept (ss : list step) (w : World) (k : ConnKey) (bus : Bus) :
  (∀ s, s ∈ ss → late s = false) →
  buses w !! k = Some (Some bus) →
  (buses (run_steps ss w) !! k = Some (Some bus) ∨
   buses (run_steps ss w) !! k = Some (Some (shutdown bus))) ∧
  (_is_shutdown bus = true → buses (run_steps ss w) !! k = Some (Some bus)).
Proof.
  intros Hlate Hk. induction ss as [|s ss IH] using rev_ind; [by split; [left|]|].
  rewrite run_steps_snoc.
  destruct IH as [IH1 IH2];
    [intros s' Hs'; apply Hlate; apply elem_of_app; by left|].
  assert (world_change (wipes s) false (passing s) (run_steps ss w)
            (after_step s (run_steps ss w))) as Hc.
  { rewrite <- (Hlate s) by (apply elem_of_app; right; apply list_elem_of_here).
    apply after_step_change. }
  split.
  - by eapply handle_kept_change.
  - intros Hs.
    assert (shutdown bus = bus) as E by (destruct bus; simpl in *; by subst).
    rewrite <- E. eapply shut_down_kept_change; [done|].
    rewrite E. by apply IH2.
Qed.

End Runs.

Section Bounds.
Context {transport : Transport}.

Lemma loop_insert_within (self : CANInterface) (msg : Message) (fifos : Store)
    (mx : Z) :
  1 ≤ mx → max_queue_size self ≤ mx →
  within mx fifos → within mx (_loop_insert self msg fifos).
Proof.
  intros Hmx Hmax Hw k q.
  destruct (decide (k = queue_key self (arbitration_id msg))) as [->|Hk].
  - rewrite loop_insert_same. intros [= <-].
    destruct (fifos !! queue_key self (arbitration_id msg)) as [q0|] eqn:E.
    + apply Hw in E.
      destruct (Z.gtb_spec (Z.of_nat (length (q0 ++ [msg]))) (max_queue_size self)).
      * rewrite length_drop, length_app. simpl. lia.
      * lia.
    + simpl. lia.
  - rewrite loop_insert_other by done. apply Hw.
Qed.

Lemma within_change (b l : bool) (p : option CANInterface) (w w' : World)
    (mx : Z) :
  world_change b l p w w' →
  1 ≤ mx → (∀ self, p = Some self → max_queue_size self ≤ mx) →
  within mx (message_fifos w) → within mx (message_fifos w').
Proof.
  intros [_ _ Hf|_ _ _ ->|k bus _ _ _ ->|k bus _ _ _ ->|k bus _ _ _ ->] Hmx Hp Hw;
    try done.
  destruct Hf as [|self msg Hself|k m q Hk|self ids r f' Hc].
  - done.
  - apply loop_insert_within; [done|by apply Hp|done].
  - intros k' q'. destruct (decide (k' = k)) as [->|Hne].
    + rewrite lookup_insert_eq. intros [= <-]. apply Hw in Hk. simpl in Hk. lia.
    + rewrite lookup_insert_ne by done. apply Hw.
  - intros k' q' Hq'.
    destruct (clear_each_lookup _ _ _ _ _ Hc k') as [E|[_ E]]; rewrite E in Hq'.
    + by apply (Hw k').
    + injection Hq' as <-. simpl. lia.
Qed.

(** X17.  Starting from a fresh process, whether calls of [open] are
    interrupted or not, no queue ever holds more messages
    than the largest maximum queue size among the instances whose receiver
    loop made a pass (and than 1, the first message of a queue being always
    kept): receiving, closing and clearing never lengthen a queue. *)
Theorem queues_within_largest_maximum (ss : list step) (mx : Z) :
  1 ≤ mx →
  (∀ s self, s ∈ ss → passing s = Some self → max_queue_size self ≤ mx) →
  within mx (message_fifos (run_steps ss empty_world)).
Proof.
  intros Hmx. induction ss as [|s ss IH] using rev_ind; intros Hp.
  - intros k q. simpl. by rewrite lookup_empty.
  - rewrite run_steps_snoc.
    eapply within_change; [apply after_step_change|done| |].
    + intros self Hs. apply (Hp s); [|done].
      apply elem_of_app. right. apply list_elem_of_here.
    + apply IH. intros s' self Hs'. apply Hp. apply elem_of_app. by left.
Qed.

Lemma present_change (l : bool) (p : option CANInterface) (w w' : World)
    (k : QueueKey) :
  world_change false l p w w' →
  is_Some (message_fifos w !! k) → is_Some (message_fifos w' !! k).
Proof.
  intros [_ _ Hf|? _ _ _|k' bus _ _ _ ->|k' bus _ _ _ ->|k' bus _ _ _ ->] Hk;
    try done.
  destruct Hf as [|self msg _|k' m q Hk'|self ids r f' Hc].
  - done.
  - destruct (decide (k = queue_key self (arbitration_id msg))) as [->|Hne].
    + by rewrite loop_insert_same.
    + by rewrite loop_insert_other.
  - destruct (decide (k = k')) as [->|Hne].
    + by rewrite lookup_insert_eq.
    + by rewrite lookup_insert_ne.
  - destruct (clear_each_lookup _ _ _ _ _ Hc k) as [E|[_ E]]; by rewrite E.
Qed.

(** X18.  A queue, once created, stays in the store through every step that
    is not a [clear_fifo] without identifiers (interrupted calls of [open]
    included): receives that drain it leave
    it present and empty, and neither [close] nor a clearing by identifier
    removes it. *)
Theorem queues_persist (ss : list step) (w : World) (k : QueueKey) :
  (∀ s, s ∈ ss → wipes s = false) →
  is_Some (message_fifos w !! k) →
  is_Some (message_fifos (run_steps ss w) !! k).
Proof.
  intros Hs Hk. induction ss as [|s ss IH] using rev_ind; [done|].
  rewrite run_steps_snoc.
  apply (present_change (late s) (passing s) (run_steps ss w)).
  - rewrite <- (Hs s) by (apply elem_of_app; right; apply list_elem_of_here).
    apply after_step_change.
  - apply IH. intros s' Hs'. apply Hs. apply elem_of_app. by left.
Qed.

End Bounds.

(** ** The further properties at sample inputs *)

Lemma loop_touches_only_received_keys_witness :
  let self := (opened (can0 10)).1 in
  let w := set_fifos {[ queue_key self 6 := [frame 6 []] ]} can0_open in
  message_fifos (_loop self [Return (Some (frame 5 [Byte.x01]))] w).2
    !! queue_key self 6 = message_fifos w !! queue_key self 6.
Proof.
  cbv zeta. apply loop_touches_only_received_keys.
  intros m ->%list_elem_of_singleton. discriminate.
Defined.

Lemma loop_without_handle_witness :
  _loop (running (can0 10)) [Return None] empty_world = (Raise KeyError, empty_world) ∧
  _loop (running (can0 10)) [Return (Some (frame 5 []))]
      (set_buses {[ conn_key (can0 10) := None ]} empty_world)
    = (Return tt, set_buses {[ conn_key (can0 10) := None ]} empty_world).
Proof.
  split.
  - apply loop_without_handle; [reflexivity|discriminate|reflexivity].
  - apply loop_without_handle. reflexivity.
Defined.

Lemma loop_stops_at_recv_failure_witness :
  let self := (opened (can0 10)).1 in
  _loop self [Return (Some (frame 5 [])); Raise CanOperationError;
              Return (Some (frame 6 []))] can0_open
    = (Raise CanOperationError, (_loop self [Return (Some (frame 5 []))] can0_open).2).
Proof.
  cbv zeta.
  apply (loop_stops_at_recv_failure (opened (can0 10)).1 can0_bus
           [Return (Some (frame 5 []))] [Return (Some (frame 6 []))]).
  - reflexivity.
  - by vm_compute.
  - by vm_compute.
Defined.

Lemma loop_logs_received_witness :
  let self := (opened (can0 10)).1 in
  log (_loop self [Return (Some (frame 5 [])); Return None; Return (Some (frame 6 []))]
         can0_open).2
    = log can0_open ++ [debug_received (frame 5 []); debug_received (frame 6 [])].
Proof.
  cbv zeta.
  refine (proj1 (loop_logs_received (opened (can0 10)).1 can0_bus
                   [Return (Some (frame 5 [])); Return None;
                    Return (Some (frame 6 []))] can0_open _ _)).
  - reflexivity.
  - by vm_compute.
Defined.

Lemma receive_from_times_out_witness :
  receive_from 3 (quiet ticking naps) (can0 10) 7 (Some (finite 2))
      (Some (finite 100)) can0_queued =
    Some (Return None, can0_queued,
          rounds 1 (printed (queue_key (can0 10) 7) (message_fifos can0_queued))
            (finite 100)).
Proof.
  apply receive_from_times_out.
  - reflexivity.
  - by vm_compute.
  - intros [|i] Hi; [by vm_compute|lia].
  - by vm_compute.
  - intros _. by vm_compute.
  - lia.
Defined.

Lemma receive_from_waits_for_message_witness :
  receive_from 5 arriving (can0 10) 5 None (Some (finite 100)) can0_open =
    Some (Return (Some (frame 5 [Byte.x01])),
          set_fifos (<[queue_key (can0 10) 5 := []]>
                       (message_fifos (slept arriving 0 2 can0_open)))
            (slept arriving 0 2 can0_open),
          rounds 2 [] (finite 100) ++ [Poll]).
Proof.
  apply receive_from_waits_for_message.
  - reflexivity.
  - lia.
  - intros _. by vm_compute.
  - intros [|[|i]] Hi; [by vm_compute|by vm_compute|lia].
  - by vm_compute.
Defined.

Lemma receive_from_untimed_never_empty_witness :
  receive_from 5 (quiet ticking naps) (can0 10) 7 None (Some (finite (1 # 100000000000)))
      can0_queued =
    Some (Raise OverflowError, can0_queued,
          [Poll; Sleep (period (finite (1 # 100000000000)))]) ∧
  receive_from 5 (quiet ticking naps) (can0 10) 7 None (Some (finite 100)) can0_queued
    = None.
Proof.
  destruct (receive_from_untimed_never_empty (can0 10) 7) as (_ & Hraise & Hwait).
  split.
  - apply Hraise; by vm_compute.
  - apply Hwait; by vm_compute.
Defined.

Lemma receive_cmd_from_round_trip_witness :
  ∃ t w',
    receive_cmd_from 0 (quiet ticking naps) (can0 10) 5 None (Some (finite 100))
        can0_queued =
      Some (Return (Some (5, [Byte.x01])), w', t) ∧
    message_fifos w' !! queue_key (can0 10) 5 = Some [] ∧
    ∀ k, k ≠ queue_key (can0 10) 5 →
      message_fifos w' !! k = message_fifos can0_open !! k.
Proof.
  apply (receive_cmd_from_round_trip 0 (quiet ticking naps) (can0 10) can0_open
           can0_bus (frame 5 [Byte.x01]) None 100%Q).
  - by vm_compute.
  - vm_compute. discriminate.
  - by vm_compute.
  - reflexivity.
  - discriminate.
Defined.

Lemma clear_fifo_wipes_every_connection_witness :
  message_fifos (clear_fifo (can0 3) None can0_queued).2 !! queue_key (can0 10) 5 = None ∧
  receive_from 5 (quiet ticking naps) (can0 10) 5 None (Some (finite 100))
    (clear_fifo (can0 3) None can0_queued).2 = None.
Proof.
  destruct (clear_fifo_wipes_every_connection (can0 3) (can0 10) None can0_queued 5 5
              ticking naps (finite 100) (or_introl eq_refl) eq_refl eq_refl)
    as (_ & Hw & _ & Hr).
  split; [apply Hw|apply Hr].
Defined.

Lemma close_keeps_queued_messages_witness :
  ∃ t, receive_from 0 (quiet ticking naps) (can0 10) 5 None (Some (finite 100))
         (close (can0 10) can0_queued).2.2 =
    Some (Return (Some (frame 5 [Byte.x01])),
          set_fifos (<[queue_key (can0 10) 5 := []]> (message_fifos can0_queued))
            (close (can0 10) can0_queued).2.2, t).
Proof.
  apply close_keeps_queued_messages.
  - reflexivity.
  - discriminate.
  - by vm_compute.
Defined.

Lemma open_then_send_witness :
  ∃ b, (send (transport := sample_transport) (opened (can0 10)).1 (frame 5 [Byte.x01])
          None (opened (can0 10)).2).1 = Return b.
Proof.
  apply (proj1 (open_then_send (transport := sample_transport) (can0 10) empty_world
                  (frame 5 [Byte.x01]) None)).
  reflexivity.
Defined.

Lemma send_cmd_true_iff_witness :
  (send_cmd (transport := sample_transport) (can0 10) 5 [Byte.x01] None can0_open).1
    = Return true.
Proof.
  apply (proj1 (send_cmd_true_iff (transport := sample_transport) (can0 10) 5
                  [Byte.x01] None can0_open)).
  exists can0_bus. split; [by vm_compute|reflexivity].
Defined.

Lemma clear_by_identifier_never_clears_witness :
  let w := run_steps (transport := sample_transport) sample_run empty_world in
  message_fifos w !! queue_key (can0 2) 1 = Some [frame 1 [Byte.x02]] ∧
  clear_fifo (can0 2) (Some [1]) w = (Return tt, w).
Proof.
  cbv zeta. split; [by vm_compute|].
  apply (clear_by_identifier_never_clears (transport := sample_transport)).
  discriminate.
Defined.

Lemma first_bus_is_kept_witness :
  let w := run_steps (transport := sample_transport)
             [Calls (Closes (can0 10)); Calls (Opens (can0 3))] can0_open in
  buses w !! conn_key (can0 10) = Some (Some can0_bus) ∨
  buses w !! conn_key (can0 10) = Some (Some (shutdown can0_bus)).
Proof.
  cbv zeta.
  refine (proj1 (first_bus_is_kept (transport := sample_transport)
                   [Calls (Closes (can0 10)); Calls (Opens (can0 3))]
                   can0_open (conn_key (can0 10)) can0_bus _ _)).
  - intros s Hs. repeat (apply elem_of_cons in Hs as [->|Hs]); try reflexivity.
    by apply elem_of_nil in Hs.
  - by vm_compute.
Defined.

Lemma queues_within_largest_maximum_witness :
  within 2 (message_fifos (run_steps (transport := sample_transport) sample_run
                             empty_world)).
Proof.
  apply (queues_within_largest_maximum (transport := sample_transport)); [lia|].
  intros s self Hs Hp. unfold sample_run in Hs.
  repeat (apply elem_of_cons in Hs as [->|Hs]); try discriminate Hp;
    try (by apply elem_of_nil in Hs);
    injection Hp as <-; vm_compute; discriminate.
Defined.

Lemma queues_persist_witness :
  is_Some (message_fifos
             (run_steps (transport := sample_transport)
                [ReceivesFrom (can0 10) 5 None (Some (finite 100)) ticking naps 0;
                 Calls (Closes (can0 10)); ClearsQueuesOf (can0 10) 0]
                can0_queued) !! queue_key (can0 10) 5).
Proof.
  apply (queues_persist (transport := sample_transport)).
  - intros s Hs. repeat (apply elem_of_cons in Hs as [->|Hs]); try reflexivity.
    by apply elem_of_nil in Hs.
  - vm_compute. eexists. reflexivity.
Defined.
